(** * tst_map: a string-keyed map on a ternary search tree

    Verification of [src/tst_map.h] (namespace [tst], class template
    [tst_map<T, Ch, Comp>]).

    The development has two layers.

    - The _tree layer_ reads the node graph as the tree it is (every node is
      owned by exactly one parent link): [tnode] is an inductive type and the
      member functions are structural recursions on it.  [size_] is a 64-bit
      [size_t] with its wrap-around written out.
    - The _store layer_ keeps the nodes in a store addressed by pointers, the
      container objects in a second store addressed by [this], and runs the
      member functions as pointer programs on it.  It is there for the
      statements that are about two containers living in one memory (the copy
      constructor), and it is linked to the tree layer by a representation
      predicate.

    Keys are [std::basic_string<Ch>] values, here [list Ch]; the member
    functions only ever look at [str.c_str()], the characters before the
    first NUL, which is [c_str]. *)

From Stdlib Require Import ZArith Ascii String Lia.
From stdpp Require Import base tactics option list gmap.

#[local] Set Warnings "-clear-no-such-hyp".

(** ** Character type and comparator *)

(** The template parameters [Ch] and [Comp]: a character type with the
    built-in [==], the terminator [Ch(0)], the wildcard ['.'] of
    [__pmsearch], and the comparator object [comp_]. *)
Class CharT (Ch : Type) := {
  ch_eq_dec :: EqDecision Ch;
  nul : Ch;
  dot : Ch;
  comp : Ch → Ch → bool;
}.

(** The contract on [Comp]: a strict total order. *)
Class CompOrder (Ch : Type) `{!CharT Ch} := {
  comp_irrefl : ∀ a, comp a a = false;
  comp_trans : ∀ a b c, comp a b = true → comp b c = true → comp a c = true;
  comp_total : ∀ a b, comp a b = false → comp b a = false → a = b;
}.

(** The default instantiation [Ch = char], [Comp = std::less<char>], with
    [char] signed (two's complement, 8 bits). *)
Definition char_val (a : ascii) : Z :=
  let n := Z.of_N (N_of_ascii a) in if (n <? 128)%Z then n else (n - 256)%Z.

Definition char_less (a b : ascii) : bool := (char_val a <? char_val b)%Z.

#[export] Instance char_CharT : CharT ascii := {|
  nul := "000"%char;
  dot := "."%char;
  comp := char_less;
|}.

(** [size_t]: 64 bits, unsigned; [++] and [--] wrap. *)
Definition SIZE_MAX : Z := 2 ^ 64 - 1.
Definition size_incr (n : Z) : Z := ((n + 1) mod 2 ^ 64)%Z.
Definition size_decr (n : Z) : Z := ((n - 1) mod 2 ^ 64)%Z.

(** ** Tree layer *)

Section tree.
Context {Ch : Type} `{!CharT Ch} {T : Type}.

(** [tstring] *)
Definition tstring : Type := list Ch.

(** [str.c_str()], read as a NUL-terminated array: the characters before
    the first NUL.  Below, a [const Ch* s] is the list of characters it
    points to before the terminator: [*s] is [deref s], [*s == 0] is
    [s = []], [s + 1] is [tail s]. *)
Fixpoint c_str (str : tstring) : list Ch :=
  match str with
  | [] => []
  | c :: r => if decide (c = nul) then [] else c :: c_str r
  end.

Definition deref (s : list Ch) : Ch := hd nul s.

(** [!comp_(a, b) && !comp_(b, a)] *)
Definition equiv_ch (a b : Ch) : bool := negb (comp a b) && negb (comp b a).

(** [struct tnode]; [pdata] is the owned [T*], [None] when null. *)
Inductive tnode : Type :=
| Null
| Node (splitchar : Ch) (lokid hikid eqkid : tnode) (pdata : option T).

(** The data members [root_] and [size_] ([comp_] is the class instance). *)
Record tst_map : Type := TstMap { root_ : tnode; size_ : Z }.

(** [tst_map()] *)
Definition tst_empty : tst_map := TstMap Null 0.

(** [Seq]: a sequence container of [pair<string, T>]. *)
Definition Seq : Type := list (tstring * T).

(** *** [__insert] (lines 388-422)

    The result is the returned node, the updated [size_] and the
    out-parameter [pos] (the value the handle points to; [None] is the
    null handle, which is what [insert] initialises [pos] with).

    When [p] is null the code allocates a [tnode] holding [*s] and then runs the
    three-way comparison against the character it has just stored; the
    comparator is irreflexive, so this is the middle branch.
    [__insert_null] is that case; the store layer below has the pointer
    program exactly as written, and [h_insert_refines] relates the two. *)
Fixpoint __insert_null (s : list Ch) (t : T) (sz : Z) : tnode * Z * option T :=
  match s with
  | [] => (Null, sz, None)
  | c :: s1 =>
      match s1 with
      | [] => (Node c Null Null Null (Some t), size_incr sz, Some t)
      | _ :: _ =>
          let '(e, sz', pos) := __insert_null s1 t sz in
          (Node c Null Null e None, sz', pos)
      end
  end.

Fixpoint __insert (p : tnode) (s : list Ch) (t : T) (sz : Z)
  : tnode * Z * option T :=
  match p with
  | Null => __insert_null s t sz
  | Node c lo hi eq d =>
      match s with
      | [] => (p, sz, None)
      | x :: s1 =>
          if comp x c then
            let '(lo', sz', pos) := __insert lo s t sz in
            (Node c lo' hi eq d, sz', pos)
          else if equiv_ch x c then
            match s1 with
            | [] =>
                match d with
                | Some _ => (Node c lo hi eq (Some t), sz, Some t)
                | None => (Node c lo hi eq (Some t), size_incr sz, Some t)
                end
            | _ :: _ =>
                let '(eq', sz', pos) := __insert eq s1 t sz in
                (Node c lo hi eq' d, sz', pos)
            end
          else
            let '(hi', sz', pos) := __insert hi s t sz in
            (Node c lo hi' eq d, sz', pos)
      end
  end.

(** [insert(const tstring&, const T&)] (lines 96-101) *)
Definition insert (m : tst_map) (str : tstring) (val : T)
  : tst_map * option T :=
  let '(r, sz, pos) := __insert (root_ m) (c_str str) val (size_ m) in
  (TstMap r sz, pos).

(** *** [find] (lines 120-140): the [while (p)] loop. *)
Fixpoint find_loop (p : tnode) (s : list Ch) : option T :=
  match p with
  | Null => None
  | Node c lo hi eq d =>
      if comp (deref s) c then find_loop lo s
      else if equiv_ch (deref s) c then
        match tail s with
        | [] => d
        | _ :: _ => find_loop eq (tail s)
        end
      else find_loop hi s
  end.

Definition find (m : tst_map) (str : tstring) : option T :=
  find_loop (root_ m) (c_str str).

(** *** [remove] (lines 191-214): the loop, with the updated tree, the
    updated [size_] and the returned [bool]. *)
Fixpoint remove_loop (p : tnode) (s : list Ch) (sz : Z) : tnode * Z * bool :=
  match p with
  | Null => (Null, sz, false)
  | Node c lo hi eq d =>
      if comp (deref s) c then
        let '(lo', sz', r) := remove_loop lo s sz in
        (Node c lo' hi eq d, sz', r)
      else if equiv_ch (deref s) c then
        match tail s, d with
        | [], Some _ => (Node c lo hi eq None, size_decr sz, true)
        | _, _ =>
            let '(eq', sz', r) := remove_loop eq (tail s) sz in
            (Node c lo hi eq' d, sz', r)
        end
      else
        let '(hi', sz', r) := remove_loop hi s sz in
        (Node c lo hi' eq d, sz', r)
  end.

Definition remove (m : tst_map) (str : tstring) : tst_map * bool :=
  let '(r, sz, b) := remove_loop (root_ m) (c_str str) (size_ m) in
  (TstMap r sz, b).

Definition size (m : tst_map) : Z := size_ m.

(** *** [__travel] (lines 352-369)

    [cur_str] is a reference that is pushed to and popped from; it is
    threaded together with the state [S] of the visitor [f]. *)
Fixpoint __travel {S : Type} (p : tnode) (f : tstring → T → S → S)
    (st : tstring * S) : tstring * S :=
  match p with
  | Null => st
  | Node c lo hi eq d =>
      let st := __travel lo f st in
      let st := (st.1 ++ [c], st.2) in
      let st := __travel eq f st in
      let st := (removelast st.1, st.2) in
      let st := __travel hi f st in
      match d with
      | Some v => (st.1, f (st.1 ++ [c]) v st.2)
      | None => st
      end
  end.

(** [foreach] (lines 169-174) *)
Definition foreach {S : Type} (m : tst_map) (f : tstring → T → S → S)
    (st : S) : S :=
  (__travel (root_ m) f ([], st)).2.

(** [__push_back<Seq>] (lines 539-548) and [Seq::clear] *)
Definition push_back (k : tstring) (v : T) (c : Seq) : Seq := c ++ [(k, v)].
Definition clear (c : Seq) : Seq := [].

(** [sequence] (lines 177-183) *)
Definition sequence (m : tst_map) (c : Seq) : Seq :=
  foreach m push_back (clear c).

(** *** [__pmsearch] (lines 287-317) *)
Fixpoint __pmsearch (p : tnode) (s : list Ch) (st : tstring * Seq)
    {struct p} : tstring * Seq :=
  match s with
  | [] => st
  | x :: s1 =>
      match p with
      | Null => st
      | Node c lo hi eq d =>
          let st :=
            if bool_decide (x = dot) || comp x c
            then __pmsearch lo s st else st in
          let st :=
            if bool_decide (x = dot) || equiv_ch x c then
              let st := (st.1 ++ [c], st.2) in
              let st :=
                match s1, d with
                | [], Some v => (st.1, st.2 ++ [(st.1, v)])
                | [], None => st
                | _ :: _, _ => __pmsearch eq s1 st
                end in
              (removelast st.1, st.2)
            else st in
          if bool_decide (x = dot) || comp c x
          then __pmsearch hi s st else st
      end
  end.

(** [pmsearch] (lines 161-167) *)
Definition pmsearch (m : tst_map) (str : tstring) (c : Seq) : Seq :=
  (__pmsearch (root_ m) (c_str str) ([], clear c)).2.

(** [__strlen] (lines 562-570), an [int]. *)
Definition __strlen (s : list Ch) : Z := Z.of_nat (length s).

(** *** [__near_search] (lines 319-349)

    [d] is an [int]; [d - 1] is only evaluated after the test [d < 0]
    failed, so it does not wrap.  [*s ? s+1 : s] is [tail s]. *)
Fixpoint __near_search (p : tnode) (s : list Ch) (d : Z)
    (st : tstring * Seq) {struct p} : tstring * Seq :=
  match p with
  | Null => st
  | Node c lo hi eq pd =>
      if (d <? 0)%Z then st else
      let d' := if equiv_ch (deref s) c then d else (d - 1)%Z in
      let st :=
        if (0 <? d)%Z || comp (deref s) c
        then __near_search lo s d st else st in
      let st := (st.1 ++ [c], st.2) in
      let st := __near_search eq (tail s) d' st in
      let st := (removelast st.1, st.2) in
      let st :=
        if (0 <? d)%Z || comp c (deref s)
        then __near_search hi s d st else st in
      match pd with
      | Some v =>
          if (__strlen (tail s) <=? d')%Z
          then (st.1, st.2 ++ [(st.1 ++ [c], v)]) else st
      | None => st
      end
  end.

(** [nearsearch] (lines 153-159) *)
Definition nearsearch (m : tst_map) (str : tstring) (d : Z) (c : Seq) : Seq :=
  (__near_search (root_ m) (c_str str) d ([], clear c)).2.

(** [__insert_helper<TSTMap>] (lines 550-560): the visitor holds a
    reference to the map it inserts into. *)
Definition __insert_helper (k : tstring) (v : T) (m : tst_map) : tst_map :=
  (insert m k v).1.

(** The copy constructor (lines 46-50), read on trees. *)
Definition tst_copy (st : tst_map) : tst_map :=
  foreach st __insert_helper tst_empty.

End tree.

Arguments tstring : clear implicits.
Arguments tnode : clear implicits.
Arguments tst_map : clear implicits.
Arguments Seq : clear implicits.

(** ** Invariants and specification-side notions *)

Section notions.
Context {Ch : Type} `{!CharT Ch} {T : Type}.
Implicit Types (p lo hi eq : tnode Ch T) (m : tst_map Ch T) (k s : list Ch).

(** No node holds the terminator: [__insert] returns before it would
    allocate one. *)
Fixpoint no_nul p : Prop :=
  match p with
  | Null => True
  | Node c lo hi eq _ => c ≠ nul ∧ no_nul lo ∧ no_nul hi ∧ no_nul eq
  end.

(** The characters that compete for one position: the split characters
    reachable through [lokid]/[hikid] links only. *)
Fixpoint level_chars p : list Ch :=
  match p with
  | Null => []
  | Node c lo hi _ _ => level_chars lo ++ c :: level_chars hi
  end.

(** The search-tree invariant, one character position at a time. *)
Fixpoint bst p : Prop :=
  match p with
  | Null => True
  | Node c lo hi eq _ =>
      Forall (λ x, comp x c = true) (level_chars lo)
      ∧ Forall (λ x, comp c x = true) (level_chars hi)
      ∧ bst lo ∧ bst hi ∧ bst eq
  end.

(** Number of nodes with a payload. *)
Fixpoint payloads p : nat :=
  match p with
  | Null => 0
  | Node _ lo hi eq d =>
      payloads lo + payloads hi + payloads eq
      + match d with Some _ => 1 | None => 0 end
  end.

(** Number of nodes, and the tree with its payload values forgotten. *)
Fixpoint node_count p : nat :=
  match p with
  | Null => 0
  | Node _ lo hi eq _ => S (node_count lo + node_count hi + node_count eq)
  end.

Fixpoint height p : nat :=
  match p with
  | Null => 0
  | Node _ lo hi eq _ => S (Nat.max (height lo) (Nat.max (height hi) (height eq)))
  end.

(** The class invariant: the tree is a search tree without terminator
    nodes, and [size_] is the number of payloads (it has not wrapped: every
    payload is a live object of its own, and there are fewer than [2^64]
    of those). *)
Definition wf_tree p : Prop := no_nul p ∧ bst p.

Definition valid m : Prop :=
  wf_tree (root_ m)
  ∧ size_ m = Z.of_nat (payloads (root_ m))
  ∧ (size_ m ≤ SIZE_MAX)%Z.

(** The states a program can reach from the default constructor. *)
Inductive reachable : tst_map Ch T → Prop :=
| reach_empty : reachable tst_empty
| reach_insert m str val : reachable m → reachable (insert m str val).1
| reach_remove m str : reachable m → reachable (remove m str).1.

(** [stored p k v]: the path spelling [k] ends at a node of [p] whose
    payload is [v].  This reads the tree without the comparator. *)
Fixpoint stored p k (v : T) : Prop :=
  match p with
  | Null => False
  | Node c lo hi eq d =>
      stored lo k v ∨ stored hi k v
      ∨ ∃ k1, k = c :: k1 ∧ ((k1 = [] ∧ d = Some v) ∨ stored eq k1 v)
  end.

(** The pair [(k, v)] is in the container: [sequence] lists it. *)
Definition contains m k (v : T) : Prop := (k, v) ∈ sequence m [].

(** A proper string: no embedded terminator, so [c_str] is all of it. *)
Definition proper (k : tstring Ch) : Prop := nul ∉ k.

(** Lexicographic order on keys induced by the comparator. *)
Fixpoint lex_less (a b : list Ch) : bool :=
  match a, b with
  | _, [] => false
  | [], _ :: _ => true
  | x :: a1, y :: b1 => comp x y || (equiv_ch x y && lex_less a1 b1)
  end.

Fixpoint ascending (ks : list (list Ch)) : Prop :=
  match ks with
  | [] => True
  | k :: ks1 => Forall (λ k', lex_less k k' = true) ks1 ∧ ascending ks1
  end.

(** Partial match, in the words of the specification: same length, and at
    every position the pattern has the wildcard or the key's character. *)
Fixpoint pm_match (pat k : list Ch) : Prop :=
  match pat, k with
  | [], [] => True
  | x :: pat1, c :: k1 => (x = dot ∨ x = c) ∧ pm_match pat1 k1
  | _, _ => False
  end.

(** Near-neighbour cost, in the words of the specification: one unit per
    substituted character, and one per leftover character on the longer
    side. *)
Fixpoint near_cost (k pat : list Ch) : Z :=
  match k, pat with
  | [], _ => Z.of_nat (length pat)
  | _ :: _, [] => Z.of_nat (length k)
  | c :: k1, x :: pat1 =>
      ((if decide (c = x) then 0 else 1) + near_cost k1 pat1)%Z
  end.

(** The tree with the payload values forgotten. *)
Fixpoint shape p : tnode Ch unit :=
  match p with
  | Null => Null
  | Node c lo hi eq d => Node c (shape lo) (shape hi) (shape eq) ((λ _, ()) <$> d)
  end.

End notions.

(** ** Pure readings of the traversals

    [__travel], [__pmsearch] and [__near_search] push to and pop from
    [cur_str] and append to an accumulator; [pairs], [pm_list] and
    [near_list] are what they append, with keys relative to the node. *)

Section readings.
Context {Ch : Type} `{!CharT Ch} {T : Type}.
Implicit Types (p lo hi eq : tnode Ch T) (k s : list Ch).

Definition self_pair (c : Ch) (d : option T) : list (list Ch * T) :=
  match d with Some v => [([c], v)] | None => [] end.

Definition under (c : Ch) (kv : list Ch * T) : list Ch * T := (c :: kv.1, kv.2).

Definition below (cur : list Ch) (kv : list Ch * T) : list Ch * T :=
  (cur ++ kv.1, kv.2).

Fixpoint pairs p : list (list Ch * T) :=
  match p with
  | Null => []
  | Node c lo hi eq d =>
      pairs lo ++ (under c <$> pairs eq) ++ pairs hi ++ self_pair c d
  end.

Fixpoint pm_list p s {struct p} : list (list Ch * T) :=
  match s, p with
  | [], _ | _, Null => []
  | x :: s1, Node c lo hi eq d =>
      (if bool_decide (x = dot) || comp x c then pm_list lo s else [])
      ++ (if bool_decide (x = dot) || equiv_ch x c then
            match s1 with
            | [] => self_pair c d
            | _ :: _ => under c <$> pm_list eq s1
            end
          else [])
      ++ (if bool_decide (x = dot) || comp c x then pm_list hi s else [])
  end.

Fixpoint near_list p s (d : Z) {struct p} : list (list Ch * T) :=
  match p with
  | Null => []
  | Node c lo hi eq pd =>
      if (d <? 0)%Z then [] else
      let d' := if equiv_ch (deref s) c then d else (d - 1)%Z in
      (if (0 <? d)%Z || comp (deref s) c then near_list lo s d else [])
      ++ (under c <$> near_list eq (tail s) d')
      ++ (if (0 <? d)%Z || comp c (deref s) then near_list hi s d else [])
      ++ (if (__strlen (tail s) <=? d')%Z then self_pair c pd else [])
  end.

End readings.

(** ** Store layer

    The same member functions as pointer programs.  Nodes live in a store
    addressed by [node_ptr]; [new tnode] takes the next free address.
    Container objects ([root_], [size_]) live in a second store and are
    addressed by [this].  A pointer program that runs out of [fuel], or
    follows a pointer to nothing, yields [None]; the public entry points
    supply the fuel, and the refinement lemmas show that it suffices. *)

Section store.
Context {Ch : Type} `{!CharT Ch} {T : Type}.

(** [node_ptr]; [None] is the null pointer. *)
Definition node_ptr : Type := option nat.

(** [struct tnode] in memory. *)
Record cell : Type := Cell {
  splitchar : Ch;
  lokid : node_ptr;
  hikid : node_ptr;
  eqkid : node_ptr;
  pdata : option T;
}.

(** The data members of one [tst_map] object. *)
Record object : Type := Object { o_root : node_ptr; o_size : Z }.

Record mem : Type := Mem { nodes : list cell; objects : list object }.

Definition set_lokid (q : node_ptr) (n : cell) : cell :=
  Cell (splitchar n) q (hikid n) (eqkid n) (pdata n).
Definition set_hikid (q : node_ptr) (n : cell) : cell :=
  Cell (splitchar n) (lokid n) q (eqkid n) (pdata n).
Definition set_eqkid (q : node_ptr) (n : cell) : cell :=
  Cell (splitchar n) (lokid n) (hikid n) q (pdata n).
Definition set_pdata (d : option T) (n : cell) : cell :=
  Cell (splitchar n) (lokid n) (hikid n) (eqkid n) d.
Definition set_root (q : node_ptr) (o : object) : object :=
  Object q (o_size o).
Definition incr_size (o : object) : object :=
  Object (o_root o) (size_incr (o_size o)).
Definition decr_size (o : object) : object :=
  Object (o_root o) (size_decr (o_size o)).

(** A write through a node pointer, and through [this]. *)
Definition upd_node (l : nat) (f : cell → cell) (h : mem) : mem :=
  Mem (alter f l (nodes h)) (objects h).
Definition upd_object (a : nat) (f : object → object) (h : mem) : mem :=
  Mem (nodes h) (alter f a (objects h)).

(** [new tnode<T,Ch>(c)] *)
Definition new_node (c : Ch) (h : mem) : nat * mem :=
  (length (nodes h),
   Mem (nodes h ++ [Cell c None None None None]) (objects h)).

(** [__insert] (lines 388-422), as written. *)
Fixpoint h_insert (fuel : nat) (this : nat) (p : node_ptr) (s : list Ch)
    (t : T) (h : mem) : option (node_ptr * option T * mem) :=
  match fuel with
  | 0 => None
  | S fuel =>
      match s with
      | [] => Some (p, None, h)
      | x :: s1 =>
          let '(l, h) :=
            match p with Some l => (l, h) | None => new_node x h end in
          n ← nodes h !! l;
          if comp x (splitchar n) then
            '(q, pos, h) ← h_insert fuel this (lokid n) s t h;
            Some (Some l, pos, upd_node l (set_lokid q) h)
          else if equiv_ch x (splitchar n) then
            match s1 with
            | [] =>
                match pdata n with
                | Some _ =>
                    Some (Some l, Some t, upd_node l (set_pdata (Some t)) h)
                | None =>
                    Some (Some l, Some t,
                          upd_node l (set_pdata (Some t))
                            (upd_object this incr_size h))
                end
            | _ :: _ =>
                '(q, pos, h) ← h_insert fuel this (eqkid n) s1 t h;
                Some (Some l, pos, upd_node l (set_eqkid q) h)
            end
          else
            '(q, pos, h) ← h_insert fuel this (hikid n) s t h;
            Some (Some l, pos, upd_node l (set_hikid q) h)
      end
  end.

(** [insert] (lines 96-101) on the object at [this]. *)
Definition obj_insert (this : nat) (str : tstring Ch) (val : T) (h : mem)
  : option (option T * mem) :=
  o ← objects h !! this;
  '(q, pos, h) ←
    h_insert (S (length (nodes h) + length (c_str str))) this (o_root o)
      (c_str str) val h;
  Some (pos, upd_object this (set_root q) h).

(** The loop of [find] (lines 120-140). *)
Fixpoint h_find (fuel : nat) (h : mem) (p : node_ptr) (s : list Ch)
  : option (option T) :=
  match fuel with
  | 0 => None
  | S fuel =>
      match p with
      | None => Some None
      | Some l =>
          n ← nodes h !! l;
          if comp (deref s) (splitchar n) then h_find fuel h (lokid n) s
          else if equiv_ch (deref s) (splitchar n) then
            match tail s with
            | [] => Some (pdata n)
            | _ :: _ => h_find fuel h (eqkid n) (tail s)
            end
          else h_find fuel h (hikid n) s
      end
  end.

Definition obj_find (this : nat) (str : tstring Ch) (h : mem)
  : option (option T) :=
  o ← objects h !! this;
  h_find (S (length (nodes h))) h (o_root o) (c_str str).

(** The loop of [remove] (lines 191-214). *)
Fixpoint h_remove (fuel : nat) (this : nat) (p : node_ptr) (s : list Ch)
    (h : mem) : option (bool * mem) :=
  match fuel with
  | 0 => None
  | S fuel =>
      match p with
      | None => Some (false, h)
      | Some l =>
          n ← nodes h !! l;
          if comp (deref s) (splitchar n) then
            h_remove fuel this (lokid n) s h
          else if equiv_ch (deref s) (splitchar n) then
            match tail s, pdata n with
            | [], Some _ =>
                Some (true,
                      upd_node l (set_pdata None)
                        (upd_object this decr_size h))
            | _, _ => h_remove fuel this (eqkid n) (tail s) h
            end
          else h_remove fuel this (hikid n) s h
      end
  end.

Definition obj_remove (this : nat) (str : tstring Ch) (h : mem)
  : option (bool * mem) :=
  o ← objects h !! this;
  h_remove (S (length (nodes h))) this (o_root o) (c_str str) h.

Definition obj_size (this : nat) (h : mem) : option Z :=
  o_size <$> objects h !! this.

(** [__travel] (lines 352-369).  The visitor may write to memory, so every
    field of [*p] is read when the code reads it. *)
Fixpoint h_travel (fuel : nat) (p : node_ptr)
    (f : tstring Ch → T → mem → option mem) (cur : tstring Ch) (h : mem)
  : option (tstring Ch * mem) :=
  match fuel with
  | 0 => None
  | S fuel =>
      match p with
      | None => Some (cur, h)
      | Some l =>
          n ← nodes h !! l;
          '(cur, h) ← h_travel fuel (lokid n) f cur h;
          n ← nodes h !! l;
          '(cur, h) ← h_travel fuel (eqkid n) f (cur ++ [splitchar n]) h;
          let cur := removelast cur in
          n ← nodes h !! l;
          '(cur, h) ← h_travel fuel (hikid n) f cur h;
          n ← nodes h !! l;
          match pdata n with
          | Some v => h ← f (cur ++ [splitchar n]) v h; Some (cur, h)
          | None => Some (cur, h)
          end
      end
  end.

(** [__insert_helper<tst_map>] bound to [*this], as a visitor on memory. *)
Definition h_insert_helper (this : nat) (k : tstring Ch) (v : T) (h : mem)
  : option mem :=
  snd <$> obj_insert this k v h.

(** The copy constructor (lines 46-50): a new object with [root_(0)],
    [size_(0)], then [st.foreach] with the insert helper.  The result is
    the address of the new object. *)
Definition copy_construct (st : nat) (h : mem) : option (nat * mem) :=
  let this := length (objects h) in
  let h := Mem (nodes h) (objects h ++ [Object None 0]) in
  o ← objects h !! st;
  '(_, h) ←
    h_travel (S (length (nodes h))) (o_root o) (h_insert_helper this) [] h;
  Some (this, h).

(** A mutation of a container, and a run of them. *)
Inductive mutation : Type :=
| MInsert (k : tstring Ch) (v : T)
| MRemove (k : tstring Ch).

Definition mutate (this : nat) (op : mutation) (h : mem) : option mem :=
  match op with
  | MInsert k v => snd <$> obj_insert this k v h
  | MRemove k => snd <$> obj_remove this k h
  end.

Fixpoint mutate_all (this : nat) (ops : list mutation) (h : mem)
  : option mem :=
  match ops with
  | [] => Some h
  | op :: ops1 => h ← mutate this op h; mutate_all this ops1 h
  end.

(** [tree_at ns p t F]: in the node store [ns], the pointer [p] is the
    root of the tree [t], whose nodes occupy exactly the addresses [F],
    each once. *)
Inductive tree_at (ns : list cell) : node_ptr → tnode Ch T → gset nat → Prop :=
| tree_at_null : tree_at ns None Null ∅
| tree_at_node l c plo phi peq d lo hi eq Flo Fhi Feq :
    ns !! l = Some (Cell c plo phi peq d) →
    tree_at ns plo lo Flo →
    tree_at ns phi hi Fhi →
    tree_at ns peq eq Feq →
    l ∉ Flo ∪ Fhi ∪ Feq →
    Flo ## Fhi → Flo ## Feq → Fhi ## Feq →
    tree_at ns (Some l) (Node c lo hi eq d) ({[l]} ∪ Flo ∪ Fhi ∪ Feq).

(** [grows ns ns' F F']: a call that owned the footprint [F] in [ns] ends
    with footprint [F'] in [ns']; what it added is freshly allocated, and
    it wrote nowhere else. *)
Definition grows (ns ns' : list cell) (F F' : gset nat) : Prop :=
  F ⊆ F'
  ∧ (∀ l, l ∈ F' → l ∈ F ∨ length ns ≤ l)
  ∧ length ns ≤ length ns'
  ∧ (∀ l, l ∉ F → l < length ns → ns' !! l = ns !! l).

(** The object at [a] is the container [m], with its nodes at [F]. *)
Definition models (h : mem) (a : nat) (m : tst_map Ch T) (F : gset nat)
  : Prop :=
  ∃ r, objects h !! a = Some (Object r (size_ m))
       ∧ tree_at (nodes h) r (root_ m) F.

End store.

Arguments cell : clear implicits.
Arguments mem : clear implicits.
Arguments mutation : clear implicits.

(** ** The rest of the interface, on trees *)

Section interface.
Context {Ch : Type} `{!CharT Ch} {T : Type}.

(** [T()], the value-initialised payload of [operator[]]. *)
Context (T_default : T).

(** [__insert] for [operator[]] (lines 424-453): as [__insert], except
    that at the end of the key an existing payload is kept and a missing
    one is created as [T()].  For a null [p] the fresh node has no payload,
    which is [__insert_null] with [T()]. *)
Fixpoint __insert_default (p : tnode Ch T) (s : list Ch) (sz : Z)
  : tnode Ch T * Z * option T :=
  match p with
  | Null => __insert_null s T_default sz
  | Node c lo hi eq d =>
      match s with
      | [] => (p, sz, None)
      | x :: s1 =>
          if comp x c then
            let '(lo', sz', pos) := __insert_default lo s sz in
            (Node c lo' hi eq d, sz', pos)
          else if equiv_ch x c then
            match s1 with
            | [] =>
                match d with
                | Some w => (Node c lo hi eq (Some w), sz, Some w)
                | None =>
                    (Node c lo hi eq (Some T_default), size_incr sz,
                     Some T_default)
                end
            | _ :: _ =>
                let '(eq', sz', pos) := __insert_default eq s1 sz in
                (Node c lo hi eq' d, sz', pos)
            end
          else
            let '(hi', sz', pos) := __insert_default hi s sz in
            (Node c lo hi' eq d, sz', pos)
      end
  end.

(** [operator[]] (lines 142-147).  The result is the referenced value;
    [None] stands for the dereference of the null [pos] that an empty C
    string leaves. *)
Definition index (m : tst_map Ch T) (str : tstring Ch)
  : tst_map Ch T * option T :=
  let '(r, sz, pos) := __insert_default (root_ m) (c_str str) (size_ m) in
  (TstMap r sz, pos).

(** [operator[] const] (lines 276-280) *)
Definition index_const (m : tst_map Ch T) (str : tstring Ch) : T :=
  match find m str with Some v => v | None => T_default end.

(** [empty] (line 151) *)
Definition empty_map (m : tst_map Ch T) : bool := (size_ m =? 0)%Z.

(** [erase] (line 216) *)
Definition erase (m : tst_map Ch T) (str : tstring Ch) : tst_map Ch T * bool :=
  remove m str.

(** [__destroy] (lines 371-386): the pointer, passed by reference, comes
    back null, and [size_] is decremented once per payload, children
    first. *)
Fixpoint __destroy (p : tnode Ch T) (sz : Z) : tnode Ch T * Z :=
  match p with
  | Null => (Null, sz)
  | Node c lo hi eq d =>
      let '(_, sz) := __destroy lo sz in
      let '(_, sz) := __destroy eq sz in
      let '(_, sz) := __destroy hi sz in
      let sz := match d with Some _ => size_decr sz | None => sz end in
      (Null, sz)
  end.

(** [clear] (lines 218-221) *)
Definition tst_clear (m : tst_map Ch T) : tst_map Ch T :=
  let '(r, sz) := __destroy (root_ m) (size_ m) in TstMap r sz.

(** [swap] (lines 185-189): [root_] and [size_] change places. *)
Definition swap (this m : tst_map Ch T) : tst_map Ch T * tst_map Ch T :=
  (TstMap (root_ m) (size_ m), TstMap (root_ this) (size_ this)).

(** [insert(Iter beg, Iter end)] (lines 103-111), the range given as the
    list of its pairs, and the range constructor (lines 59-68). *)
Definition insert_range (m : tst_map Ch T) (l : list (tstring Ch * T))
  : tst_map Ch T :=
  foldl (λ m kv, (insert m kv.1 kv.2).1) m l.

Definition tst_of_range (l : list (tstring Ch * T)) : tst_map Ch T :=
  insert_range tst_empty l.

(** [operator=] (lines 70-78) from another object ([this != &m]): clear,
    then re-insert every pair of [m]. *)
Definition assign (this m : tst_map Ch T) : tst_map Ch T :=
  foreach m __insert_helper (tst_clear this).

(** What a range leaves for the C string [s]: the value of the last pair
    whose key reads as [s]. *)
Definition last_value (l : list (tstring Ch * T)) (s : list Ch) : option T :=
  foldl (λ acc kv, if decide (c_str kv.1 = s) then Some kv.2 else acc) None l.

End interface.

(** The converting copy constructor (lines 52-57): the source has its own
    value type and comparator; its pairs are traversed and inserted under
    this container's comparator, values converted. *)
Definition tst_copy_from {Ch : Type} (CT : CharT Ch) {U T : Type}
    (conv : U → T) (st : tst_map Ch U) : tst_map Ch T :=
  foreach st (λ k v m, (@insert Ch CT T m k (conv v)).1) tst_empty.

(** [swap] (lines 185-189) on two objects in memory. *)
Definition obj_swap {Ch T : Type} (this m : nat) (h : mem Ch T)
  : option (mem Ch T) :=
  o1 ← objects h !! this;
  o2 ← objects h !! m;
  let h := upd_object this (set_root (o_root o2)) h in
  let h := upd_object m (set_root (o_root o1)) h in
  o1' ← objects h !! this;
  o2' ← objects h !! m;
  let h := upd_object this (λ o, Object (o_root o) (o_size o2')) h in
  Some (upd_object m (λ o, Object (o_root o) (o_size o1')) h).

(** A run of mutations, on trees. *)
Definition mutate_tree {Ch : Type} `{!CharT Ch} {T : Type}
    (m : tst_map Ch T) (op : mutation Ch T) : tst_map Ch T :=
  match op with
  | MInsert k v => (insert m k v).1
  | MRemove k => (remove m k).1
  end.

(** [unsigned char] with [std::less]: the order of the character codes. *)
Definition uchar_less (a b : ascii) : bool :=
  (N_of_ascii a <? N_of_ascii b)%N.

Definition uchar_CharT : CharT ascii := {|
  nul := "000"%char;
  dot := "."%char;
  comp := uchar_less;
|}.

(** ** Example data

    [tst_map<int>] over the default character type; string literals become
    keys, and a container is built by inserting pairs in the order given. *)

Definition key (s : string) : tstring ascii := list_ascii_of_string s.

Arguments key s%_string.

Definition build (kvs : list (tstring ascii * Z)) : tst_map ascii Z :=
  foldl (λ m kv, (insert m kv.1 kv.2).1) tst_empty kvs.

(** ** Characters and C strings *)

Section chars.
Context {Ch : Type} `{!CharT Ch} `{!CompOrder Ch}.
Implicit Types (a b c x : Ch) (k s : list Ch).

Lemma equiv_ch_true a b : equiv_ch a b = true ↔ a = b.
Proof.
  unfold equiv_ch. split.
  - intros [Hab Hba]%andb_prop.
    apply comp_total; by apply negb_true_iff.
  - intros ->. by rewrite comp_irrefl.
Qed.

Lemma equiv_ch_refl a : equiv_ch a a = true.
Proof. by apply equiv_ch_true. Qed.

Lemma equiv_ch_false a b : equiv_ch a b = false ↔ a ≠ b.
Proof.
  rewrite <- equiv_ch_true. destruct (equiv_ch a b); naive_solver.
Qed.

Lemma comp_asym a b : comp a b = true → comp b a = false.
Proof.
  intros Hab. destruct (comp b a) eqn:Hba; [|done].
  by rewrite <- (comp_irrefl a), (comp_trans a b a).
Qed.

Lemma comp_neq a b : comp a b = true → a ≠ b.
Proof. intros Hab ->. by rewrite comp_irrefl in Hab. Qed.

(** The three branches of every descent are exclusive and exhaustive. *)
Lemma comp_cases a b :
  (comp a b = true ∧ equiv_ch a b = false ∧ comp b a = false)
  ∨ (comp a b = false ∧ equiv_ch a b = true ∧ comp b a = false ∧ a = b)
  ∨ (comp a b = false ∧ equiv_ch a b = false ∧ comp b a = true).
Proof.
  destruct (comp a b) eqn:Hab.
  - left. pose proof (comp_asym _ _ Hab) as Hba.
    unfold equiv_ch. by rewrite Hab, Hba.
  - destruct (comp b a) eqn:Hba.
    + right; right. unfold equiv_ch. by rewrite Hab, Hba.
    + right; left. pose proof (comp_total _ _ Hab Hba).
      unfold equiv_ch. by rewrite Hab, Hba.
Qed.

Lemma c_str_proper (str : list Ch) : nul ∉ c_str str.
Proof.
  induction str as [|c r IH]; simpl; [set_solver|].
  case_decide; [set_solver|]. rewrite elem_of_cons. naive_solver.
Qed.

Lemma c_str_id (str : list Ch) : nul ∉ str → c_str str = str.
Proof.
  induction str as [|c r IH]; [done|]. rewrite elem_of_cons. intros Hn.
  simpl. case_decide; [naive_solver|]. f_equal. naive_solver.
Qed.

Lemma c_str_idem (str : list Ch) : c_str (c_str str) = c_str str.
Proof. apply c_str_id, c_str_proper. Qed.

Lemma c_str_nil_iff (str : list Ch) : c_str str = [] ↔ deref str = nul.
Proof. destruct str as [|c r]; simpl; [done|]. case_decide; naive_solver. Qed.

End chars.

(** Case analysis on the three-way comparison of [x] against [c], rewriting
    the tests in the goal. *)
Ltac three_way x c :=
  let H1 := fresh "Hlt" in let H2 := fresh "Heqv" in
  let H3 := fresh "Hgt" in let H4 := fresh "Hxc" in
  destruct (comp_cases x c) as [(H1&H2&H3)|[(H1&H2&H3&H4)|(H1&H2&H3)]];
  rewrite ?H1, ?H2, ?H3.

(** One step of the option monad on a successful read. *)
Ltac bind_step :=
  match goal with
  | |- context [@mbind option _ _ _ ?f (Some ?x)] =>
      change (@mbind option _ _ _ f (Some x)) with (f x); cbv beta iota
  end.

(** ** The traversals compute their pure readings *)

Section traversal_readings.
Context {Ch : Type} `{!CharT Ch} {T : Type}.
Implicit Types (p lo hi eq : tnode Ch T) (k s cur : list Ch) (acc : Seq Ch T).

Lemma removelast_snoc cur (c : Ch) : removelast (cur ++ [c]) = cur.
Proof. apply removelast_last. Qed.

Lemma below_under cur (c : Ch) (l : list (list Ch * T)) :
  below (cur ++ [c]) <$> l = below cur <$> (under c <$> l).
Proof.
  rewrite <- list_fmap_compose. apply list_fmap_ext. intros _ [k v] _.
  unfold below, under, compose; simpl. by rewrite <- app_assoc.
Qed.

Lemma below_nil (l : list (list Ch * T)) : below [] <$> l = l.
Proof.
  rewrite <- (list_fmap_id l) at 2. apply list_fmap_ext. by intros _ [k v] _.
Qed.

(** [__travel] leaves [cur_str] as it found it and calls the visitor on
    the pairs of [pairs p], in that order, prefixed by [cur_str]. *)
Lemma travel_pairs {S : Type} (f : tstring Ch → T → S → S) p cur (st : S) :
  __travel p f (cur, st)
  = (cur, foldl (λ st kv, f (cur ++ kv.1) kv.2 st) st (pairs p)).
Proof.
  revert cur st. induction p as [|c lo IHlo hi IHhi eq IHeq d]; intros cur st.
  { done. }
  simpl. rewrite IHlo. simpl. rewrite IHeq. simpl.
  rewrite removelast_snoc, IHhi. simpl.
  rewrite !foldl_app, foldl_fmap. simpl.
  assert (∀ l st0,
    foldl (λ st1 kv, f ((cur ++ [c]) ++ kv.1) kv.2 st1) st0 l
    = foldl (λ st1 kv, f (cur ++ c :: kv.1) kv.2 st1) st0 l) as ->.
  { intros l. induction l as [|[k v] l IH]; intros st0; simpl; [done|].
    by rewrite IH, <- app_assoc. }
  by destruct d.
Qed.

Lemma foldl_push_back acc (l : list (list Ch * T)) cur :
  foldl (λ st kv, push_back (cur ++ kv.1) kv.2 st) acc l
  = acc ++ (below cur <$> l).
Proof.
  revert acc. induction l as [|[k v] l IH]; intros acc; simpl.
  - by rewrite app_nil_r.
  - rewrite IH. unfold push_back. by rewrite <- app_assoc.
Qed.

Lemma sequence_pairs (m : tst_map Ch T) acc : sequence m acc = pairs (root_ m).
Proof.
  unfold sequence, foreach, clear. rewrite travel_pairs. simpl.
  rewrite (foldl_push_back [] _ []). simpl. apply below_nil.
Qed.

Lemma pmsearch_pm_list p s cur acc :
  __pmsearch p s (cur, acc) = (cur, acc ++ (below cur <$> pm_list p s)).
Proof.
  revert s cur acc.
  induction p as [|c lo IHlo hi IHhi eq IHeq d]; intros s cur acc.
  { destruct s; simpl; by rewrite app_nil_r. }
  destruct s as [|x s1]; simpl; [by rewrite app_nil_r|].
  rewrite !fmap_app, !app_assoc.
  set (st1 := if bool_decide (x = dot) || comp x c
              then __pmsearch lo (x :: s1) (cur, acc) else (cur, acc)).
  assert (st1 = (cur, acc ++ (below cur <$>
     (if bool_decide (x = dot) || comp x c then pm_list lo (x :: s1) else []))))
    as ->.
  { unfold st1. destruct (bool_decide (x = dot) || comp x c); [by rewrite IHlo|simpl; by rewrite app_nil_r]. }
  set (acc1 := acc ++ _).
  set (st2 := if bool_decide (x = dot) || equiv_ch x c then _ else _).
  assert (st2 = (cur, acc1 ++ (below cur <$>
     (if bool_decide (x = dot) || equiv_ch x c then
        match s1 with
        | [] => self_pair c d
        | _ :: _ => under c <$> pm_list eq s1
        end else [])))) as ->.
  { unfold st2. destruct (bool_decide (x = dot) || equiv_ch x c); simpl; [|by rewrite app_nil_r].
    destruct s1 as [|y s2].
    - destruct d; simpl; by rewrite removelast_snoc, ?app_nil_r.
    - rewrite IHeq. simpl. by rewrite removelast_snoc, below_under. }
  set (acc2 := acc1 ++ _).
  destruct (bool_decide (x = dot) || comp c x); [by rewrite IHhi|simpl; by rewrite app_nil_r].
Qed.

Lemma pmsearch_reading (m : tst_map Ch T) (str : tstring Ch) acc :
  pmsearch m str acc = pm_list (root_ m) (c_str str).
Proof.
  unfold pmsearch, clear. rewrite pmsearch_pm_list. simpl. apply below_nil.
Qed.

Lemma near_search_near_list p s d cur acc :
  __near_search p s d (cur, acc)
  = (cur, acc ++ (below cur <$> near_list p s d)).
Proof.
  revert s d cur acc.
  induction p as [|c lo IHlo hi IHhi eq IHeq pd]; intros s d cur acc.
  { simpl; by rewrite app_nil_r. }
  simpl. destruct (d <? 0)%Z; [by rewrite app_nil_r|].
  set (d' := if equiv_ch (deref s) c then d else (d - 1)%Z).
  rewrite !fmap_app, !app_assoc.
  set (st1 := if (0 <? d)%Z || comp (deref s) c
              then __near_search lo s d (cur, acc) else (cur, acc)).
  assert (st1 = (cur, acc ++ (below cur <$>
     (if (0 <? d)%Z || comp (deref s) c then near_list lo s d else []))))
    as ->.
  { unfold st1. destruct ((0 <? d)%Z || comp (deref s) c); [by rewrite IHlo|simpl; by rewrite app_nil_r]. }
  set (acc1 := acc ++ _). simpl.
  rewrite IHeq. simpl. rewrite removelast_snoc, below_under.
  set (acc2 := acc1 ++ _).
  set (st3 := if (0 <? d)%Z || comp c (deref s) then _ else _).
  assert (st3 = (cur, acc2 ++ (below cur <$>
     (if (0 <? d)%Z || comp c (deref s) then near_list hi s d else []))))
    as ->.
  { unfold st3. destruct ((0 <? d)%Z || comp c (deref s)); [by rewrite IHhi|simpl; by rewrite app_nil_r]. }
  destruct pd as [v|]; simpl.
  - destruct (__strlen (tail s) <=? d')%Z; simpl; [done|by rewrite app_nil_r].
  - destruct (__strlen (tail s) <=? d')%Z; simpl; by rewrite app_nil_r.
Qed.

Lemma nearsearch_reading (m : tst_map Ch T) (str : tstring Ch) d acc :
  nearsearch m str d acc = near_list (root_ m) (c_str str) d.
Proof.
  unfold nearsearch, clear. rewrite near_search_near_list. simpl.
  apply below_nil.
Qed.

End traversal_readings.

(** ** What a tree stores, and what [find] reads *)

Section stored_theory.
Context {Ch : Type} `{!CharT Ch} `{!CompOrder Ch} {T : Type}.
Implicit Types (p lo hi eq : tnode Ch T) (k s : list Ch) (v : T).

Lemma stored_nil p v : ¬ stored p [] v.
Proof. induction p; simpl; naive_solver. Qed.

Lemma stored_head p k v :
  stored p k v → ∃ x k1, k = x :: k1 ∧ x ∈ level_chars p.
Proof.
  induction p as [|c lo IHlo hi IHhi eq IHeq d]; simpl; [done|].
  intros [H|[H|(k1&->&_)]].
  - destruct (IHlo H) as (x&k1&->&Hx). exists x, k1. set_solver.
  - destruct (IHhi H) as (x&k1&->&Hx). exists x, k1. set_solver.
  - exists c, k1. set_solver.
Qed.

Lemma stored_proper p k v : no_nul p → stored p k v → nul ∉ k.
Proof.
  revert k. induction p as [|c lo IHlo hi IHhi eq IHeq d]; simpl; [done|].
  intros k (Hc&Hlo&Hhi&Heq) [H|[H|(k1&->&H)]]; [by eauto..|].
  rewrite not_elem_of_cons. split; [done|].
  destruct H as [[-> _]|H]; [set_solver|by eauto].
Qed.

Lemma elem_of_self_pair (c : Ch) (d : option T) k v :
  (k, v) ∈ self_pair c d ↔ k = [c] ∧ d = Some v.
Proof. destruct d; simpl; set_solver. Qed.

Lemma elem_of_under (c : Ch) (l : list (list Ch * T)) k v :
  (k, v) ∈ under c <$> l ↔ ∃ k1, k = c :: k1 ∧ (k1, v) ∈ l.
Proof.
  rewrite list_elem_of_fmap. split.
  - intros ([k1 v1]&[= -> ->]&Hin). by exists k1.
  - intros (k1&->&Hin). by exists (k1, v).
Qed.

Lemma elem_of_pairs p k v : (k, v) ∈ pairs p ↔ stored p k v.
Proof.
  revert k. induction p as [|c lo IHlo hi IHhi eq IHeq d]; intros k; simpl.
  { by rewrite elem_of_nil. }
  rewrite !elem_of_app, elem_of_under, elem_of_self_pair, IHlo, IHhi.
  setoid_rewrite IHeq. naive_solver.
Qed.

Lemma find_nil p : no_nul p → find_loop p [] = None.
Proof.
  induction p as [|c lo IHlo hi IHhi eq IHeq d]; simpl; [done|].
  intros (Hc&Hlo&Hhi&Heq). three_way (nul : Ch) c; by auto.
Qed.

Lemma find_stored p k v : k ≠ [] → find_loop p k = Some v → stored p k v.
Proof.
  revert k. induction p as [|c lo IHlo hi IHhi eq IHeq d]; simpl; [done|].
  intros [|x k1] Hk; [done|]. simpl. three_way x c; [by auto| |by auto].
  subst x. destruct k1 as [|y k2].
  - intros ->. right; right. exists []. split; [done|by left].
  - intros H. right; right. exists (y :: k2). split; [done|]. right.
    by apply IHeq.
Qed.

Lemma stored_find p k v : bst p → stored p k v → find_loop p k = Some v.
Proof.
  revert k. induction p as [|c lo IHlo hi IHhi eq IHeq d]; simpl; [done|].
  intros k (Blo&Bhi&Hlo&Hhi&Heq) [H|[H|(k1&->&H)]].
  - destruct (stored_head _ _ _ H) as (x&k1&->&Hx). simpl.
    rewrite Forall_forall in Blo. rewrite (Blo x Hx). by apply IHlo.
  - destruct (stored_head _ _ _ H) as (x&k1&->&Hx). simpl.
    rewrite Forall_forall in Bhi. pose proof (Bhi x Hx) as Hcx.
    three_way x c; [congruence|congruence|by apply IHhi].
  - simpl. rewrite comp_irrefl, equiv_ch_refl.
    destruct H as [[-> ->]|H]; [done|].
    destruct k1 as [|y k2]; [by apply stored_nil in H|by apply IHeq].
Qed.

Lemma stored_iff_find p k v :
  bst p → stored p k v ↔ k ≠ [] ∧ find_loop p k = Some v.
Proof.
  intros Hb. split.
  - intros H. split; [|by apply stored_find].
    intros ->. by apply stored_nil in H.
  - intros [? ?]. by apply find_stored.
Qed.

Lemma stored_functional p k v v' :
  bst p → stored p k v → stored p k v' → v = v'.
Proof.
  intros Hb H H'. apply (stored_find _ _ _ Hb) in H, H'. congruence.
Qed.

(** Present pairs and [find], on a container. *)
Lemma contains_stored (m : tst_map Ch T) k v :
  contains m k v ↔ stored (root_ m) k v.
Proof. unfold contains. by rewrite sequence_pairs, elem_of_pairs. Qed.

Lemma contains_find (m : tst_map Ch T) k v :
  wf_tree (root_ m) →
  contains m k v ↔ proper k ∧ find m k = Some v.
Proof.
  intros [Hn Hb]. rewrite contains_stored. unfold find, proper. split.
  - intros H. pose proof (stored_proper _ _ _ Hn H) as Hk.
    split; [done|]. rewrite c_str_id by done. by apply stored_find.
  - intros [Hk H]. rewrite c_str_id in H by done.
    apply find_stored; [|done]. intros ->. by rewrite find_nil in H.
Qed.

(** The keys of [pairs p] are pairwise different. *)
Lemma NoDup_self_pair (c : Ch) (d : option T) : NoDup (self_pair c d).*1.
Proof. destruct d; simpl; [apply NoDup_singleton|apply NoDup_nil_2]. Qed.

Lemma NoDup_under (c : Ch) (l : list (list Ch * T)) :
  NoDup l.*1 → NoDup (under c <$> l).*1.
Proof.
  intros H. rewrite <- list_fmap_compose.
  replace (fst ∘ under c) with ((c ::.) ∘ (fst : list Ch * T → list Ch)).
  - rewrite list_fmap_compose. apply NoDup_fmap_2; [|done]. by intros ?? [=].
  - done.
Qed.

Lemma elem_of_keys (l : list (list Ch * T)) k :
  k ∈ l.*1 ↔ ∃ v, (k, v) ∈ l.
Proof.
  rewrite list_elem_of_fmap. split.
  - intros ([k' v]&->&H). by exists v.
  - intros (v&H). by exists (k, v).
Qed.

(** Keys found in the three subtrees of a node and at the node itself
    do not clash: they differ in the first character, or in length. *)
Lemma NoDup_node_keys c lo hi eq d (l1 l2 l3 l4 : list (list Ch * T)) :
  bst (Node c lo hi eq d) →
  (∀ k v, (k, v) ∈ l1 → stored lo k v) →
  (∀ k v, (k, v) ∈ l2 → ∃ k1, k = c :: k1 ∧ k1 ≠ []) →
  (∀ k v, (k, v) ∈ l3 → stored hi k v) →
  (∀ k v, (k, v) ∈ l4 → k = [c]) →
  NoDup l1.*1 → NoDup l2.*1 → NoDup l3.*1 → NoDup l4.*1 →
  NoDup (l1 ++ l2 ++ l3 ++ l4).*1.
Proof.
  simpl. intros (Blo&Bhi&_) H1 H2 H3 H4 N1 N2 N3 N4.
  rewrite Forall_forall in Blo. rewrite Forall_forall in Bhi.
  assert (∀ k, k ∈ l1.*1 → ∃ x k1, k = x :: k1 ∧ comp x c = true) as G1.
  { intros k (v&Hin)%elem_of_keys.
    destruct (stored_head _ _ _ (H1 _ _ Hin)) as (x&k1&->&Hx). eauto. }
  assert (∀ k, k ∈ l3.*1 → ∃ x k1, k = x :: k1 ∧ comp c x = true) as G3.
  { intros k (v&Hin)%elem_of_keys.
    destruct (stored_head _ _ _ (H3 _ _ Hin)) as (x&k1&->&Hx). eauto. }
  assert (∀ k, k ∈ l2.*1 → ∃ k1, k = c :: k1 ∧ k1 ≠ []) as G2.
  { intros k (v&Hin)%elem_of_keys. eauto. }
  assert (∀ k, k ∈ l4.*1 → k = [c]) as G4.
  { intros k (v&Hin)%elem_of_keys. eauto. }
  rewrite !fmap_app. repeat (apply NoDup_app; split_and!); try done.
  - intros k (x&k1&->&Hx)%G1. rewrite !elem_of_app.
    intros [(?&[= -> ->]&_)%G2|[(y&?&[= -> ->]&Hy)%G3|[= -> ->]%G4]].
    + by rewrite comp_irrefl in Hx.
    + by rewrite (comp_asym _ _ Hx) in Hy.
    + by rewrite comp_irrefl in Hx.
  - intros k (k1&->&Hk1)%G2. rewrite !elem_of_app.
    intros [(y&?&[= -> ->]&Hy)%G3|[= ->]%G4]; [|done].
    by rewrite comp_irrefl in Hy.
  - intros k (x&k1&->&Hx)%G3 [= -> ->]%G4.
    by rewrite comp_irrefl in Hx.
Qed.

Lemma NoDup_pairs p : bst p → NoDup (pairs p).*1.
Proof.
  induction p as [|c lo IHlo hi IHhi eq IHeq d]; [intros; apply NoDup_nil_2|].
  intros Hb. pose proof Hb as (_&_&Hlo&Hhi&Heq).
  apply (NoDup_node_keys c lo hi eq d); auto using NoDup_self_pair, NoDup_under.
  - intros k v. by rewrite elem_of_pairs.
  - intros k v (k1&->&H%elem_of_pairs)%elem_of_under. exists k1.
    split; [done|]. intros ->. by apply stored_nil in H.
  - intros k v. by rewrite elem_of_pairs.
  - intros k v [-> _]%elem_of_self_pair. done.
Qed.

End stored_theory.

(** ** Insertion *)

Section insert_theory.
Context {Ch : Type} `{!CharT Ch} `{!CompOrder Ch} {T : Type}.
Implicit Types (p lo hi eq : tnode Ch T) (k s : list Ch) (v : T) (sz : Z).

(** Name the three components of a call to [__insert]. *)
Ltac name_insert p s :=
  match goal with
  | |- context [__insert p s ?v ?sz] =>
      let E := fresh "E" in
      destruct (__insert p s v sz) as [[? ?] ?] eqn:E
  end.

Ltac name_insert_null s :=
  match goal with
  | |- context [__insert_null s ?v ?sz] =>
      let E := fresh "E" in
      destruct (__insert_null s v sz) as [[? ?] ?] eqn:E
  end.

Lemma insert_nil p v sz : __insert p [] v sz = (p, sz, None).
Proof. by destruct p. Qed.

(** *** The fresh chain *)

Lemma insert_null_step (x y : Ch) s2 v sz :
  __insert_null (x :: y :: s2) v sz
  = let '(e, sz', pos) := __insert_null (y :: s2) v sz in
    (Node x Null Null e None, sz', pos).
Proof. done. Qed.

Lemma insert_null_out s v sz :
  s ≠ [] →
  (__insert_null s v sz).1.2 = size_incr sz
  ∧ (__insert_null s v sz).2 = Some v.
Proof.
  induction s as [|x [|y s2] IH]; intros Hs; [done|done|].
  rewrite !insert_null_step.
  name_insert_null (y :: s2). simpl in *. by apply IH.
Qed.

Lemma insert_null_tree_indep s v sz sz' :
  (__insert_null s v sz).1.1 = (__insert_null s v sz').1.1.
Proof.
  induction s as [|x [|y s2] IH]; [done|done|].
  rewrite !insert_null_step.
  destruct (__insert_null (y :: s2) v sz) as [[??]?].
  destruct (__insert_null (y :: s2) v sz') as [[??]?]. simpl in *.
  by f_equal.
Qed.

Lemma insert_null_find s v sz : s ≠ [] →
  find_loop (__insert_null s v sz).1.1 s = Some v.
Proof.
  induction s as [|x [|y s2] IH]; intros Hs; [done| |].
  - simpl. by rewrite comp_irrefl, equiv_ch_refl.
  - rewrite !insert_null_step.
    name_insert_null (y :: s2). simpl in *.
    rewrite comp_irrefl, equiv_ch_refl. by apply IH.
Qed.

Lemma insert_null_find_ne s s' v sz :
  nul ∉ s → s' ≠ s → find_loop (__insert_null s v sz).1.1 s' = None.
Proof.
  revert s'. induction s as [|x [|y s2] IH]; intros s' Hn Hs; [done| |].
  - simpl. apply not_elem_of_cons in Hn as [Hx _].
    three_way (deref s') x; [done| |done].
    destruct s' as [|x' [|y' s2']]; simpl in *; congruence.
  - rewrite !insert_null_step.
    name_insert_null (y :: s2). simpl in *.
    apply not_elem_of_cons in Hn as [Hx Hn].
    three_way (deref s') x; [done| |done].
    destruct s' as [|x' [|y' s2']]; simpl in *; [congruence|done|].
    subst x'. apply (IH (y' :: s2')); [done|congruence].
Qed.

Lemma insert_null_no_nul s v sz : nul ∉ s → no_nul (__insert_null s v sz).1.1.
Proof.
  induction s as [|x [|y s2] IH]; intros Hn; [done| |].
  - simpl. set_solver.
  - rewrite !insert_null_step.
    name_insert_null (y :: s2). simpl in *.
    apply not_elem_of_cons in Hn as [Hx Hn]. auto.
Qed.

Lemma insert_null_level s v sz :
  level_chars (__insert_null s v sz).1.1 = take 1 s.
Proof.
  destruct s as [|x [|y s2]]; [done|done|].
  rewrite !insert_null_step.
  by name_insert_null (y :: s2).
Qed.

Lemma insert_null_bst s v sz : bst (__insert_null s v sz).1.1.
Proof.
  induction s as [|x [|y s2] IH]; [done| |].
  - simpl. auto.
  - rewrite !insert_null_step.
    name_insert_null (y :: s2). simpl in *. auto.
Qed.

Lemma insert_null_payloads s v sz :
  s ≠ [] → payloads (__insert_null s v sz).1.1 = 1.
Proof.
  induction s as [|x [|y s2] IH]; intros Hs; [done|done|].
  rewrite !insert_null_step.
  name_insert_null (y :: s2). simpl in *. rewrite IH; [lia|done].
Qed.

(** *** The general case *)

Lemma insert_out p s v sz :
  s ≠ [] →
  (__insert p s v sz).1.2
    = (if find_loop p s is Some _ then sz else size_incr sz)
  ∧ (__insert p s v sz).2 = Some v.
Proof.
  revert s. induction p as [|c lo IHlo hi IHhi eq IHeq d]; intros s Hs.
  { by apply insert_null_out. }
  destruct s as [|x s1]; [done|]. simpl. three_way x c.
  - name_insert lo (x :: s1). simpl. specialize (IHlo (x :: s1) Hs).
    by rewrite E in IHlo.
  - destruct s1 as [|y s2]; [by destruct d|].
    name_insert eq (y :: s2). simpl. specialize (IHeq (y :: s2)).
    rewrite E in IHeq. by apply IHeq.
  - name_insert hi (x :: s1). simpl. specialize (IHhi (x :: s1) Hs).
    by rewrite E in IHhi.
Qed.

Lemma insert_tree_indep p s v sz sz' :
  (__insert p s v sz).1.1 = (__insert p s v sz').1.1.
Proof.
  revert s. induction p as [|c lo IHlo hi IHhi eq IHeq d]; intros s.
  { apply insert_null_tree_indep. }
  destruct s as [|x s1]; [done|]. simpl. three_way x c.
  - specialize (IHlo (x :: s1)).
    destruct (__insert lo (x :: s1) v sz) as [[??]?].
    destruct (__insert lo (x :: s1) v sz') as [[??]?]. simpl in *. by f_equal.
  - destruct s1 as [|y s2]; [by destruct d|]. specialize (IHeq (y :: s2)).
    destruct (__insert eq (y :: s2) v sz) as [[??]?].
    destruct (__insert eq (y :: s2) v sz') as [[??]?]. simpl in *. by f_equal.
  - specialize (IHhi (x :: s1)).
    destruct (__insert hi (x :: s1) v sz) as [[??]?].
    destruct (__insert hi (x :: s1) v sz') as [[??]?]. simpl in *. by f_equal.
Qed.

(** Round trip: the descent of [find] retraces the descent of
    [__insert]. *)
Lemma find_insert_eq p s v sz :
  s ≠ [] → find_loop (__insert p s v sz).1.1 s = Some v.
Proof.
  revert s. induction p as [|c lo IHlo hi IHhi eq IHeq d]; intros s Hs.
  { by apply insert_null_find. }
  destruct s as [|x s1]; [done|]. simpl. three_way x c.
  - name_insert lo (x :: s1). simpl. rewrite Hlt.
    specialize (IHlo (x :: s1) Hs). by rewrite E in IHlo.
  - destruct s1 as [|y s2].
    + destruct d; simpl; by rewrite Hlt, Heqv.
    + name_insert eq (y :: s2). simpl. rewrite Hlt, Heqv.
      specialize (IHeq (y :: s2)). rewrite E in IHeq. by apply IHeq.
  - name_insert hi (x :: s1). simpl. rewrite Hlt, Heqv.
    specialize (IHhi (x :: s1) Hs). by rewrite E in IHhi.
Qed.

(** Frame: no other key sees the insertion. *)
Lemma find_insert_ne p s s' v sz :
  nul ∉ s → s' ≠ s →
  find_loop (__insert p s v sz).1.1 s' = find_loop p s'.
Proof.
  revert s s'.
  induction p as [|c lo IHlo hi IHhi eq IHeq d]; intros s s' Hn Hs.
  { by apply insert_null_find_ne. }
  destruct s as [|x s1]; [done|]. simpl.
  apply not_elem_of_cons in Hn as [Hx Hn]. three_way x c.
  - name_insert lo (x :: s1). simpl.
    specialize (IHlo (x :: s1) s'). rewrite E in IHlo. simpl in IHlo.
    rewrite IHlo; [done|set_solver|done].
  - subst x. destruct s1 as [|y s2].
    + assert (∀ d', find_loop (Node c lo hi eq d') s' = find_loop (Node c lo hi eq d) s')
        as Hd.
      { intros d'. simpl. three_way (deref s') c; [done| |done].
        destruct s' as [|x' [|y' s2']]; simpl in *; congruence. }
      destruct d; apply Hd.
    + name_insert eq (y :: s2). simpl.
      three_way (deref s') c; [done| |done].
      destruct s' as [|x' [|y' s2']]; simpl in *; [congruence|done|].
      subst x'. specialize (IHeq (y :: s2) (y' :: s2')).
      rewrite E in IHeq. simpl in IHeq. apply IHeq; [done|congruence].
  - name_insert hi (x :: s1). simpl.
    specialize (IHhi (x :: s1) s'). rewrite E in IHhi. simpl in IHhi.
    rewrite IHhi; [done|set_solver|done].
Qed.

(** *** Invariants *)

Lemma insert_no_nul p s v sz :
  nul ∉ s → no_nul p → no_nul (__insert p s v sz).1.1.
Proof.
  revert s. induction p as [|c lo IHlo hi IHhi eq IHeq d]; intros s Hn Hp.
  { by apply insert_null_no_nul. }
  destruct s as [|x s1]; [done|]. simpl in *. destruct Hp as (?&?&?&?).
  three_way x c.
  - specialize (IHlo (x :: s1) Hn). name_insert lo (x :: s1). simpl in *. auto.
  - destruct s1 as [|y s2]; [by destruct d|].
    specialize (IHeq (y :: s2)). name_insert eq (y :: s2). simpl in *.
    split_and!; [done..|]. apply IHeq; [set_solver|done].
  - specialize (IHhi (x :: s1) Hn). name_insert hi (x :: s1). simpl in *. auto.
Qed.

Lemma insert_level p s v sz y :
  y ∈ level_chars (__insert p s v sz).1.1 → y ∈ level_chars p ∨ y ∈ take 1 s.
Proof.
  revert s. induction p as [|c lo IHlo hi IHhi eq IHeq d]; intros s.
  { simpl. rewrite insert_null_level. auto. }
  destruct s as [|x s1]; [auto|]. simpl. three_way x c.
  - specialize (IHlo (x :: s1)). name_insert lo (x :: s1). simpl in *.
    rewrite !elem_of_app, !elem_of_cons. intros [Hy|Hy]; [|by auto].
    destruct (IHlo Hy) as [?|?%elem_of_cons]; by auto.
  - destruct s1 as [|y' s2]; [destruct d; simpl; auto|].
    name_insert eq (y' :: s2). simpl. auto.
  - specialize (IHhi (x :: s1)). name_insert hi (x :: s1). simpl in *.
    rewrite !elem_of_app, !elem_of_cons. intros [Hy|[Hy|Hy]]; [by auto..|].
    destruct (IHhi Hy) as [?|?%elem_of_cons]; by auto.
Qed.

Lemma insert_bst p s v sz : bst p → bst (__insert p s v sz).1.1.
Proof.
  revert s. induction p as [|c lo IHlo hi IHhi eq IHeq d]; intros s Hp.
  { by apply insert_null_bst. }
  destruct s as [|x s1]; [done|]. simpl in *.
  destruct Hp as (Blo&Bhi&?&?&?). three_way x c.
  - specialize (IHlo (x :: s1)).
    pose proof (insert_level lo (x :: s1) v sz) as Hl.
    name_insert lo (x :: s1). simpl in *. split_and!; auto.
    rewrite Forall_forall in Blo. apply Forall_forall. intros y Hy.
    destruct (Hl y Hy) as [?|?%list_elem_of_singleton]; [auto|by subst].
  - destruct s1 as [|y s2]; [by destruct d|].
    specialize (IHeq (y :: s2)). name_insert eq (y :: s2). simpl in *.
    split_and!; auto.
  - specialize (IHhi (x :: s1)).
    pose proof (insert_level hi (x :: s1) v sz) as Hl.
    name_insert hi (x :: s1). simpl in *. split_and!; auto.
    rewrite Forall_forall in Bhi. apply Forall_forall. intros y Hy.
    destruct (Hl y Hy) as [?|?%list_elem_of_singleton]; [auto|by subst].
Qed.

Lemma insert_payloads p s v sz :
  s ≠ [] →
  payloads (__insert p s v sz).1.1
  = (payloads p + if find_loop p s is Some _ then 0 else 1)%nat.
Proof.
  revert s. induction p as [|c lo IHlo hi IHhi eq IHeq d]; intros s Hs.
  { by apply insert_null_payloads. }
  destruct s as [|x s1]; [done|]. simpl. three_way x c.
  - specialize (IHlo (x :: s1) Hs). name_insert lo (x :: s1). simpl in *. lia.
  - destruct s1 as [|y s2]; [destruct d; simpl; lia|].
    specialize (IHeq (y :: s2)). name_insert eq (y :: s2). simpl in *.
    rewrite IHeq by done. lia.
  - specialize (IHhi (x :: s1) Hs). name_insert hi (x :: s1). simpl in *. lia.
Qed.

(** Inserting a key that is there allocates nothing: only the payload
    value changes. *)
Lemma insert_present_shape p s v sz :
  is_Some (find_loop p s) → s ≠ [] →
  shape (__insert p s v sz).1.1 = shape p.
Proof.
  revert s. induction p as [|c lo IHlo hi IHhi eq IHeq d]; intros s Hf Hs.
  { by destruct Hf. }
  destruct s as [|x s1]; [done|]. simpl in *. revert Hf. three_way x c; intros Hf.
  - specialize (IHlo (x :: s1) Hf Hs). name_insert lo (x :: s1). simpl in *.
    by rewrite IHlo.
  - destruct s1 as [|y s2]; [by destruct Hf as [? ->]|].
    specialize (IHeq (y :: s2) Hf). name_insert eq (y :: s2). simpl in *.
    by rewrite IHeq.
  - specialize (IHhi (x :: s1) Hf Hs). name_insert hi (x :: s1). simpl in *.
    by rewrite IHhi.
Qed.

End insert_theory.

(** ** Removal *)

Section remove_theory.
Context {Ch : Type} `{!CharT Ch} `{!CompOrder Ch} {T : Type}.
Implicit Types (p lo hi eq : tnode Ch T) (k s : list Ch) (v : T) (sz : Z).

(** Past the end of the key the loop compares the terminator against
    split characters, finds no equal one, and falls off the tree. *)
Lemma remove_nil p sz : no_nul p → remove_loop p [] sz = (p, sz, false).
Proof.
  induction p as [|c lo IHlo hi IHhi eq IHeq d]; simpl; [done|].
  intros (Hc&Hlo&Hhi&Heq). three_way (nul : Ch) c.
  - by rewrite IHlo.
  - done.
  - by rewrite IHhi.
Qed.

(** What [remove] does, by what [find] sees. *)
Lemma remove_loop_spec p s sz :
  no_nul p →
  match find_loop p s with
  | None => remove_loop p s sz = (p, sz, false)
  | Some _ =>
      ∃ p', remove_loop p s sz = (p', size_decr sz, true)
        ∧ find_loop p' s = None
        ∧ payloads p = S (payloads p')
        ∧ level_chars p' = level_chars p
        ∧ no_nul p'
        ∧ (bst p → bst p')
        ∧ ∀ s', s' ≠ s → find_loop p' s' = find_loop p s'
  end.
Proof.
  revert s. induction p as [|c lo IHlo hi IHhi eq IHeq d]; intros s; [done|].
  simpl. intros (Hc&Hlo&Hhi&Heq). three_way (deref s) c.
  - specialize (IHlo s Hlo). destruct (find_loop lo s).
    + destruct IHlo as (lo'&->&Hf&Hp&Hl&Hn&Hb&Hfr).
      exists (Node c lo' hi eq d). simpl. rewrite Hlt, Hl.
      split; [done|]. split; [done|]. split; [lia|]. split; [done|].
      split; [done|]. split; [naive_solver|].
      intros s' Hs'. three_way (deref s') c; auto.
    + by rewrite IHlo.
  - destruct s as [|x s1]; [by simpl in *|]. simpl in *. subst x.
    destruct s1 as [|y s2].
    + destruct d as [w|]; [|by rewrite remove_nil].
      exists (Node c lo hi eq None). simpl. rewrite Hlt, Heqv.
      split; [done|]. split; [done|]. split; [lia|]. split; [done|].
      split; [done|]. split; [done|].
      intros s' Hs'. three_way (deref s') c; [done| |done].
      destruct s' as [|x' [|y' s2']]; simpl in *; congruence.
    + specialize (IHeq (y :: s2) Heq). destruct (find_loop eq (y :: s2)).
      * destruct IHeq as (eq'&->&Hf&Hp&Hl&Hn&Hb&Hfr).
        exists (Node c lo hi eq' d). simpl. rewrite Hlt, Heqv.
        split; [by destruct d|]. split; [done|]. split; [lia|]. split; [done|].
        split; [done|]. split; [naive_solver|].
        intros s' Hs'. three_way (deref s') c; [done| |done].
        destruct s' as [|x' [|y' s2']]; simpl in *; [done..|].
        subst x'. apply Hfr. congruence.
      * rewrite IHeq. by destruct d.
  - specialize (IHhi s Hhi). destruct (find_loop hi s).
    + destruct IHhi as (hi'&->&Hf&Hp&Hl&Hn&Hb&Hfr).
      exists (Node c lo hi' eq d). simpl. rewrite Hlt, Heqv, Hl.
      split; [done|]. split; [done|]. split; [lia|]. split; [done|].
      split; [done|]. split; [naive_solver|].
      intros s' Hs'. three_way (deref s') c; auto.
    + by rewrite IHhi.
Qed.

End remove_theory.

(** ** Partial-match and near-neighbour search, characterised *)

Section search_theory.
Context {Ch : Type} `{!CharT Ch} `{!CompOrder Ch} {T : Type}.
Implicit Types (p lo hi eq : tnode Ch T) (k s : list Ch) (v : T).

Lemma pm_match_length s k : pm_match s k → length k = length s.
Proof.
  revert k. induction s as [|x s1 IH]; intros [|c k1]; simpl; try done.
  intros [_ H]. f_equal. by apply IH.
Qed.

Lemma wild_or (x c : Ch) :
  bool_decide (x = dot) || equiv_ch x c = true ↔ x = dot ∨ x = c.
Proof. by rewrite orb_true_iff, bool_decide_eq_true, equiv_ch_true. Qed.

Lemma level_chars_bound_lo c lo hi eq d k v :
  bst (Node c lo hi eq d) → stored lo k v →
  ∃ x k1, k = x :: k1 ∧ comp x c = true.
Proof.
  simpl. intros (Blo&_) (x&k1&->&Hx)%stored_head.
  rewrite Forall_forall in Blo. eauto.
Qed.

Lemma level_chars_bound_hi c lo hi eq d k v :
  bst (Node c lo hi eq d) → stored hi k v →
  ∃ x k1, k = x :: k1 ∧ comp c x = true.
Proof.
  simpl. intros (_&Bhi&_) (x&k1&->&Hx)%stored_head.
  rewrite Forall_forall in Bhi. eauto.
Qed.

(** [__pmsearch] reports exactly the stored pairs that match. *)
Lemma elem_of_pm_list p s k v :
  bst p → (k, v) ∈ pm_list p s ↔ stored p k v ∧ pm_match s k.
Proof.
  revert s k. induction p as [|c lo IHlo hi IHhi eq IHeq d]; intros s k Hb.
  { destruct s; simpl; rewrite elem_of_nil; naive_solver. }
  destruct s as [|x s1].
  { simpl. rewrite elem_of_nil. split; [done|].
    intros [Hs Hm]. destruct k; [|done].
    by apply (stored_nil (Node c lo hi eq d) v). }
  pose proof Hb as (_&_&Hlo&Hhi&Heq).
  change (pm_list (Node c lo hi eq d) (x :: s1)) with
    ((if bool_decide (x = dot) || comp x c then pm_list lo (x :: s1) else [])
     ++ (if bool_decide (x = dot) || equiv_ch x c then
           match s1 with
           | [] => self_pair c d
           | _ :: _ => under c <$> pm_list eq s1
           end
         else [])
     ++ (if bool_decide (x = dot) || comp c x then pm_list hi (x :: s1) else [])).
  rewrite !elem_of_app. split.
  - intros [H|[H|H]].
    + destruct (_ || _); [|by apply elem_of_nil in H].
      apply IHlo in H as [? ?]; [|done]. simpl. auto.
    + destruct (bool_decide (x = dot) || equiv_ch x c) eqn:Hw;
        [|by apply elem_of_nil in H].
      apply wild_or in Hw. destruct s1 as [|y s2].
      * apply elem_of_self_pair in H as [-> ->]. simpl. split; [|done].
        right; right. exists []. auto.
      * apply elem_of_under in H as (k1&->&H).
        apply IHeq in H as [? ?]; [|done]. simpl. split; [|done].
        right; right. exists k1. auto.
    + destruct (_ || _); [|by apply elem_of_nil in H].
      apply IHhi in H as [? ?]; [|done]. simpl. auto.
  - intros [Hs Hm]. simpl in Hs. destruct Hs as [Hs|[Hs|(k1&->&Hs)]].
    + left. destruct (level_chars_bound_lo _ _ _ _ _ _ _ Hb Hs)
        as (k0&k1&->&Hk0).
      destruct Hm as [[->| ->] Hm].
      * rewrite bool_decide_eq_true_2 by done. simpl. apply IHlo; [done|].
        split; [done|]. simpl. auto.
      * rewrite Hk0, orb_true_r. apply IHlo; [done|].
        split; [done|]. simpl. auto.
    + right; right. destruct (level_chars_bound_hi _ _ _ _ _ _ _ Hb Hs)
        as (k0&k1&->&Hk0).
      destruct Hm as [[->| ->] Hm].
      * rewrite bool_decide_eq_true_2 by done. simpl. apply IHhi; [done|].
        split; [done|]. simpl. auto.
      * rewrite Hk0, orb_true_r. apply IHhi; [done|].
        split; [done|]. simpl. auto.
    + right; left. destruct Hm as [Hw Hm]. apply wild_or in Hw. rewrite Hw.
      destruct Hs as [[-> ->]|Hs].
      * destruct s1; [|done]. by apply elem_of_self_pair.
      * destruct s1 as [|y s2].
        { destruct k1; [by apply stored_nil in Hs|done]. }
        apply elem_of_under. exists k1. split; [done|]. by apply IHeq.
Qed.

Lemma near_cost_nil_r k : near_cost k [] = Z.of_nat (length k).
Proof. by destruct k. Qed.

Lemma near_cost_nonneg k s : (0 ≤ near_cost k s)%Z.
Proof.
  revert s. induction k as [|c k1 IH]; intros [|x s1]; simpl; try lia.
  specialize (IH s1). case_decide; lia.
Qed.

(** One node's worth of cost: what [__near_search] subtracts from [d]
    when it follows [eqkid]. *)
Lemma near_cost_step (c : Ch) k1 s :
  c ≠ nul →
  near_cost (c :: k1) s
  = ((if equiv_ch (deref s) c then 0 else 1) + near_cost k1 (tail s))%Z.
Proof.
  intros Hc. destruct s as [|x s1]; simpl.
  - assert (equiv_ch nul c = false) as -> by (apply equiv_ch_false; done).
    rewrite near_cost_nil_r. lia.
  - case_decide as Hx.
    + subst x. by rewrite equiv_ch_refl.
    + assert (equiv_ch x c = false) as -> by (apply equiv_ch_false; done).
      done.
Qed.

Lemma level_chars_no_nul p x : no_nul p → x ∈ level_chars p → x ≠ nul.
Proof.
  induction p as [|c lo IHlo hi IHhi eq IHeq d]; simpl; [by intros _ ?%elem_of_nil|].
  intros (?&?&?&?). rewrite elem_of_app, elem_of_cons. naive_solver.
Qed.

(** [__near_search] reports exactly the stored pairs within budget. *)
Lemma elem_of_near_list p s d k v :
  bst p → no_nul p →
  (k, v) ∈ near_list p s d ↔ stored p k v ∧ (near_cost k s ≤ d)%Z.
Proof.
  revert s d k.
  induction p as [|c lo IHlo hi IHhi eq IHeq pd]; intros s d k Hb Hn.
  { simpl. rewrite elem_of_nil. naive_solver. }
  pose proof Hb as (Blo&Bhi&Hblo&Hbhi&Hbeq).
  pose proof Hn as (Hc&Hnlo&Hnhi&Hneq).
  rewrite Forall_forall in Blo. rewrite Forall_forall in Bhi.
  simpl near_list. destruct (Z.ltb_spec d 0) as [Hd|Hd].
  { rewrite elem_of_nil. pose proof (near_cost_nonneg k s). split; [done|lia]. }
  set (d' := if equiv_ch (deref s) c then d else (d - 1)%Z).
  assert (∀ k1, near_cost k1 (tail s) ≤ d' ↔ near_cost (c :: k1) s ≤ d)%Z
    as Hstep.
  { intros k1. rewrite near_cost_step by done. unfold d'.
    destruct (equiv_ch (deref s) c); lia. }
  rewrite !elem_of_app, elem_of_under. simpl stored. split.
  - intros [H|[(k1&->&H)|[H|H]]].
    + destruct (_ || _); [|by apply elem_of_nil in H].
      apply IHlo in H as [? ?]; auto.
    + apply IHeq in H as [? ?]; [|done..]. split; [|by apply Hstep].
      right; right. exists k1. auto.
    + destruct (_ || _); [|by apply elem_of_nil in H].
      apply IHhi in H as [? ?]; auto.
    + destruct (Z.leb_spec (__strlen (tail s)) d') as [Hl|Hl];
        [|by apply elem_of_nil in H].
      apply elem_of_self_pair in H as [-> ->]. split.
      * right; right. exists []. auto.
      * apply Hstep. by rewrite (near_cost_nil_r []) || simpl.
  - intros [[Hs|[Hs|(k1&->&Hs)]] Hcost].
    + left. destruct (stored_head _ _ _ Hs) as (k0&k1&->&Hk0).
      assert ((0 <? d)%Z || comp (deref s) c = true) as ->.
      { destruct (Z.ltb_spec 0 d) as [|Hd0]; [done|]. simpl.
        rewrite near_cost_step in Hcost
          by (eapply level_chars_no_nul; [exact Hnlo|done]).
        pose proof (near_cost_nonneg k1 (tail s)).
        destruct (equiv_ch (deref s) k0) eqn:He; [|lia].
        apply equiv_ch_true in He as ->. auto. }
      apply IHlo; auto.
    + right; right; left. destruct (stored_head _ _ _ Hs) as (k0&k1&->&Hk0).
      assert ((0 <? d)%Z || comp c (deref s) = true) as ->.
      { destruct (Z.ltb_spec 0 d) as [|Hd0]; [done|]. simpl.
        rewrite near_cost_step in Hcost
          by (eapply level_chars_no_nul; [exact Hnhi|done]).
        pose proof (near_cost_nonneg k1 (tail s)).
        destruct (equiv_ch (deref s) k0) eqn:He; [|lia].
        apply equiv_ch_true in He as ->. auto. }
      apply IHhi; auto.
    + apply Hstep in Hcost. destruct Hs as [[-> ->]|Hs].
      * right; right; right. simpl in Hcost.
        assert ((__strlen (tail s) <=? d')%Z = true) as ->.
        { apply Z.leb_le. exact Hcost. }
        simpl. apply list_elem_of_singleton. done.
      * right; left. exists k1. split; [done|]. apply IHeq; auto.
Qed.

End search_theory.

(** ** The member functions on a container *)

Section container_theory.
Context {Ch : Type} `{!CharT Ch} `{!CompOrder Ch} {T : Type}.
Implicit Types (m : tst_map Ch T) (p : tnode Ch T) (k s : list Ch) (v : T).

Lemma insert_unfold m k v :
  insert m k v =
  (TstMap (__insert (root_ m) (c_str k) v (size_ m)).1.1
          (__insert (root_ m) (c_str k) v (size_ m)).1.2,
   (__insert (root_ m) (c_str k) v (size_ m)).2).
Proof. unfold insert. by destruct (__insert _ _ _ _) as [[??]?]. Qed.

Lemma remove_unfold m k :
  remove m k =
  (TstMap (remove_loop (root_ m) (c_str k) (size_ m)).1.1
          (remove_loop (root_ m) (c_str k) (size_ m)).1.2,
   (remove_loop (root_ m) (c_str k) (size_ m)).2).
Proof. unfold remove. by destruct (remove_loop _ _ _) as [[??]?]. Qed.

Lemma find_nul_start m k : no_nul (root_ m) → c_str k = [] → find m k = None.
Proof. intros Hn Hk. unfold find. rewrite Hk. by apply find_nil. Qed.

Lemma insert_empty_key m k v : c_str k = [] → insert m k v = (m, None).
Proof.
  intros Hk. rewrite insert_unfold, Hk, insert_nil. by destruct m.
Qed.

Lemma find_insert m k v : c_str k ≠ [] → find (insert m k v).1 k = Some v.
Proof. intros Hk. rewrite insert_unfold. by apply find_insert_eq. Qed.

Lemma find_insert_other m k k' v :
  c_str k' ≠ c_str k → find (insert m k v).1 k' = find m k'.
Proof.
  intros Hk. rewrite insert_unfold. apply find_insert_ne; [|done].
  apply c_str_proper.
Qed.

Lemma size_insert m k v :
  c_str k ≠ [] →
  size (insert m k v).1 = if find m k is Some _ then size m else size_incr (size m).
Proof. intros Hk. rewrite insert_unfold. by apply insert_out. Qed.

Lemma insert_handle m k v : c_str k ≠ [] → (insert m k v).2 = Some v.
Proof. intros Hk. rewrite insert_unfold. by apply insert_out. Qed.

Lemma insert_wf m k v : wf_tree (root_ m) → wf_tree (root_ (insert m k v).1).
Proof.
  intros [Hn Hb]. rewrite insert_unfold. split.
  - apply insert_no_nul; [apply c_str_proper|done].
  - by apply insert_bst.
Qed.

Lemma payloads_insert m k v :
  c_str k ≠ [] →
  payloads (root_ (insert m k v).1)
  = (payloads (root_ m) + if find m k is Some _ then 0 else 1)%nat.
Proof. intros Hk. rewrite insert_unfold. by apply insert_payloads. Qed.

Lemma find_payloads p s v : find_loop p s = Some v → (1 ≤ payloads p)%nat.
Proof.
  revert s. induction p as [|c lo IHlo hi IHhi eq IHeq d]; intros s; [done|].
  simpl. three_way (deref s) c.
  - intros ?%IHlo. lia.
  - destruct (tail s); [intros ->; lia|intros ?%IHeq; lia].
  - intros ?%IHhi. lia.
Qed.

Lemma size_incr_exact n : (0 ≤ n < SIZE_MAX)%Z → size_incr n = (n + 1)%Z.
Proof. unfold size_incr, SIZE_MAX. intros ?. apply Z.mod_small. lia. Qed.

Lemma size_decr_exact n : (1 ≤ n ≤ SIZE_MAX)%Z → size_decr n = (n - 1)%Z.
Proof. unfold size_decr, SIZE_MAX. intros ?. apply Z.mod_small. lia. Qed.

Lemma valid_empty : valid (tst_empty : tst_map Ch T).
Proof. unfold valid, wf_tree, SIZE_MAX. simpl. split_and!; done. Qed.

(** [insert] keeps the class invariant while the counter has room. *)
Lemma valid_insert m k v :
  valid m → is_Some (find m k) ∨ (size m < SIZE_MAX)%Z →
  valid (insert m k v).1.
Proof.
  intros (Hwf&Hsz&Hmax) Hroom. split; [by apply insert_wf|].
  destruct (decide (c_str k = [])) as [Hk|Hk].
  { by rewrite insert_empty_key. }
  rewrite payloads_insert by done.
  pose proof (size_insert m k v Hk) as Hs. unfold size in *. rewrite Hs.
  destruct (find m k) eqn:Hf.
  - split; [by rewrite Nat.add_0_r|done].
  - destruct Hroom as [[? [=]]|Hlt].
    rewrite size_incr_exact by lia. lia.
Qed.

Lemma remove_spec m k :
  no_nul (root_ m) →
  match find m k with
  | None => remove m k = (m, false)
  | Some _ =>
      ∃ p', remove m k = (TstMap p' (size_decr (size_ m)), true)
        ∧ find_loop p' (c_str k) = None
        ∧ payloads (root_ m) = S (payloads p')
        ∧ no_nul p'
        ∧ (bst (root_ m) → bst p')
        ∧ ∀ s', s' ≠ c_str k → find_loop p' s' = find_loop (root_ m) s'
  end.
Proof.
  intros Hn. unfold find, remove.
  pose proof (remove_loop_spec (root_ m) (c_str k) (size_ m) Hn) as H.
  destruct (find_loop (root_ m) (c_str k)).
  - destruct H as (p'&->&?&?&?&?&?&?). exists p'. by split_and!.
  - rewrite H. by destruct m.
Qed.

Lemma remove_wf m k : wf_tree (root_ m) → wf_tree (root_ (remove m k).1).
Proof.
  intros [Hn Hb]. pose proof (remove_spec m k Hn) as H.
  destruct (find m k).
  - destruct H as (p'&->&?&?&?&?&?). split; auto.
  - by rewrite H.
Qed.

Lemma valid_remove m k : valid m → valid (remove m k).1.
Proof.
  intros ([Hn Hb]&Hsz&Hmax). pose proof (remove_spec m k Hn) as H.
  destruct (find m k).
  - destruct H as (p'&->&?&Hp&?&?&?).
    split; [split; auto|]. simpl. rewrite size_decr_exact by lia. lia.
  - by rewrite H.
Qed.

(** Every reachable state is a search tree without terminator nodes. *)
Lemma reachable_wf m : reachable m → wf_tree (root_ m).
Proof.
  induction 1; [done|by apply insert_wf|by apply remove_wf].
Qed.

(** [sequence] lists exactly what [find] finds, each key once. *)
Lemma sequence_complete m k v c :
  wf_tree (root_ m) →
  (k, v) ∈ sequence m c ↔ proper k ∧ find m k = Some v.
Proof.
  intros Hwf. rewrite <- contains_find by done. unfold contains.
  by rewrite !sequence_pairs.
Qed.

Lemma sequence_NoDup m c : wf_tree (root_ m) → NoDup (sequence m c).*1.
Proof. intros [_ Hb]. rewrite sequence_pairs. by apply NoDup_pairs. Qed.

End container_theory.

(** ** The default instantiation satisfies the comparator contract *)

Lemma char_val_inj a b : char_val a = char_val b → a = b.
Proof.
  unfold char_val. intros H.
  pose proof (N_ascii_bounded a). pose proof (N_ascii_bounded b).
  rewrite <- (ascii_N_embedding a), <- (ascii_N_embedding b). f_equal.
  destruct (Z.ltb_spec (Z.of_N (N_of_ascii a)) 128),
    (Z.ltb_spec (Z.of_N (N_of_ascii b)) 128); lia.
Qed.

#[export] Instance char_CompOrder : CompOrder ascii.
Proof.
  split; unfold comp; simpl; unfold char_less.
  - intros a. apply Z.ltb_irrefl.
  - intros a b c ?%Z.ltb_lt ?%Z.ltb_lt. apply Z.ltb_lt. lia.
  - intros a b ?%Z.ltb_ge ?%Z.ltb_ge. apply char_val_inj. lia.
Qed.

(** ** No pair is reported twice by a partial-match search *)

Section search_nodup.
Context {Ch : Type} `{!CharT Ch} `{!CompOrder Ch} {T : Type}.
Implicit Types (p lo hi eq : tnode Ch T) (k s : list Ch) (v : T).

Lemma NoDup_pm_list p s : bst p → NoDup (pm_list p s).*1.
Proof.
  revert s. induction p as [|c lo IHlo hi IHhi eq IHeq d]; intros s Hb.
  { destruct s; apply NoDup_nil_2. }
  destruct s as [|x s1]; [apply NoDup_nil_2|].
  pose proof Hb as (_&_&Hlo&Hhi&Heq).
  change (pm_list (Node c lo hi eq d) (x :: s1)) with
    ((if bool_decide (x = dot) || comp x c then pm_list lo (x :: s1) else [])
     ++ (if bool_decide (x = dot) || equiv_ch x c then
           match s1 with
           | [] => self_pair c d
           | _ :: _ => under c <$> pm_list eq s1
           end
         else [])
     ++ (if bool_decide (x = dot) || comp c x then pm_list hi (x :: s1) else [])).
  set (l1 := if bool_decide (x = dot) || comp x c then _ else _).
  set (l3 := if bool_decide (x = dot) || comp c x then _ else _).
  assert (∀ k v, (k, v) ∈ l1 → stored lo k v) as H1.
  { intros k v. unfold l1. destruct (bool_decide (x = dot) || comp x c); [|by intros ?%elem_of_nil].
    rewrite elem_of_pm_list by done. tauto. }
  assert (∀ k v, (k, v) ∈ l3 → stored hi k v) as H3.
  { intros k v. unfold l3. destruct (bool_decide (x = dot) || comp c x); [|by intros ?%elem_of_nil].
    rewrite elem_of_pm_list by done. tauto. }
  assert (NoDup l1.*1) as N1.
  { unfold l1. destruct (bool_decide (x = dot) || comp x c); [by apply IHlo|apply NoDup_nil_2]. }
  assert (NoDup l3.*1) as N3.
  { unfold l3. destruct (bool_decide (x = dot) || comp c x); [by apply IHhi|apply NoDup_nil_2]. }
  destruct (bool_decide (x = dot) || equiv_ch x c).
  - destruct s1 as [|y s2].
    + (* the node itself, between its two sides *)
      assert (NoDup (l1 ++ [] ++ l3 ++ self_pair c d).*1) as HN.
      { apply (NoDup_node_keys c lo hi eq d); auto using NoDup_self_pair.
        - by intros k v ?%elem_of_nil.
        - intros k v [-> _]%elem_of_self_pair. done.
        - apply NoDup_nil_2. }
      revert HN. simpl. rewrite !fmap_app. intros HN.
      eapply NoDup_Permutation_proper; [|exact HN].
      f_equiv. apply Permutation_app_comm.
    + assert (NoDup (l1 ++ (under c <$> pm_list eq (y :: s2)) ++ l3 ++ []).*1)
        as HN.
      { apply (NoDup_node_keys c lo hi eq d); auto using NoDup_under.
        - intros k v (k1&->&H)%elem_of_under. exists k1. split; [done|].
          apply elem_of_pm_list in H as [H _]; [|done].
          intros ->. by apply stored_nil in H.
        - by intros k v ?%elem_of_nil.
        - apply NoDup_nil_2. }
      by rewrite app_nil_r in HN.
  - assert (NoDup (l1 ++ [] ++ l3 ++ []).*1) as HN.
    { apply (NoDup_node_keys c lo hi eq d); auto.
      - by intros k v ?%elem_of_nil.
      - by intros k v ?%elem_of_nil.
      - apply NoDup_nil_2.
      - apply NoDup_nil_2. }
    by rewrite app_nil_r in HN.
Qed.

End search_nodup.

(** ** The copy constructor, on trees *)

Section copy_theory.
Context {Ch : Type} `{!CharT Ch} `{!CompOrder Ch} {T : Type}.
Implicit Types (m : tst_map Ch T) (p : tnode Ch T) (k s : list Ch) (v : T).
Implicit Types (l : list (list Ch * T)).

Lemma foreach_fold {S : Type} m (f : tstring Ch → T → S → S) (st : S) :
  foreach m f st = foldl (λ st kv, f kv.1 kv.2 st) st (pairs (root_ m)).
Proof. unfold foreach. by rewrite travel_pairs. Qed.

Lemma tst_copy_fold m :
  tst_copy m
  = foldl (λ mb kv, __insert_helper kv.1 kv.2 mb) tst_empty (pairs (root_ m)).
Proof. apply foreach_fold. Qed.

Lemma length_pairs p : length (pairs p) = payloads p.
Proof.
  induction p as [|c lo IHlo hi IHhi eq IHeq d]; [done|]. simpl.
  rewrite !length_app, length_fmap, IHlo, IHhi, IHeq. destruct d; simpl; lia.
Qed.

Lemma pairs_keys p k v :
  no_nul p → (k, v) ∈ pairs p → nul ∉ k ∧ k ≠ [].
Proof.
  intros Hn H%elem_of_pairs. split; [by eapply stored_proper|].
  intros ->. by apply stored_nil in H.
Qed.

(** A run of inserts, as the visitor performs them. *)
Lemma fold_insert_other l m k :
  c_str k ∉ (c_str <$> l.*1) →
  find (foldl (λ mb kv, __insert_helper kv.1 kv.2 mb) m l) k = find m k.
Proof.
  revert m. induction l as [|[k0 v0] l IH]; intros m Hk; [done|].
  simpl in *. apply not_elem_of_cons in Hk as [Hk0 Hk].
  rewrite IH by done. by apply find_insert_other.
Qed.

Lemma fold_insert_find l m k v :
  (∀ k0 v0, (k0, v0) ∈ l → nul ∉ k0 ∧ k0 ≠ []) →
  NoDup l.*1 → (k, v) ∈ l →
  find (foldl (λ mb kv, __insert_helper kv.1 kv.2 mb) m l) k = Some v.
Proof.
  revert m. induction l as [|[k0 v0] l IH]; intros m Hl Hnd Hin.
  { by apply elem_of_nil in Hin. }
  simpl in *. apply NoDup_cons in Hnd as [Hk0 Hnd].
  apply elem_of_cons in Hin as [[= -> ->]|Hin].
  - destruct (Hl k0 v0) as [Hp Hne]; [by left|].
    rewrite fold_insert_other.
    + apply find_insert. by rewrite c_str_id.
    + rewrite c_str_id by done. intros (k1&Hk1&Hin1)%list_elem_of_fmap.
      apply elem_of_keys in Hin1 as [v1 Hin1].
      destruct (Hl k1 v1) as [Hp1 _]; [by right|].
      rewrite c_str_id in Hk1 by done. subst k1.
      apply Hk0, elem_of_keys. eauto.
  - apply IH; [|done..]. intros k1 v1 ?. apply (Hl k1 v1). by right.
Qed.

Lemma fold_insert_wf l m :
  wf_tree (root_ m) →
  wf_tree (root_ (foldl (λ mb kv, __insert_helper kv.1 kv.2 mb) m l)).
Proof.
  revert m. induction l as [|[k0 v0] l IH]; intros m Hm; [done|].
  simpl. apply IH. by apply insert_wf.
Qed.

Lemma size_incr_mod n : size_incr (n mod 2 ^ 64) = ((n + 1) mod 2 ^ 64)%Z.
Proof. unfold size_incr. by rewrite Zplus_mod_idemp_l. Qed.

(** Inserting keys none of which is there: one more payload each, and
    the counter follows modulo [2^64]. *)
Lemma fold_insert_count l m n :
  (∀ k0 v0, (k0, v0) ∈ l → nul ∉ k0 ∧ k0 ≠ []) →
  NoDup l.*1 →
  (∀ k0 v0, (k0, v0) ∈ l → find m k0 = None) →
  size_ m = (n mod 2 ^ 64)%Z →
  payloads (root_ (foldl (λ mb kv, __insert_helper kv.1 kv.2 mb) m l))
    = (payloads (root_ m) + length l)%nat
  ∧ size_ (foldl (λ mb kv, __insert_helper kv.1 kv.2 mb) m l)
    = ((n + Z.of_nat (length l)) mod 2 ^ 64)%Z.
Proof.
  revert m n. induction l as [|[k0 v0] l IH]; intros m n Hl Hnd Hnone Hsz.
  { simpl. by rewrite Nat.add_0_r, Z.add_0_r. }
  simpl. apply NoDup_cons in Hnd as [Hk0 Hnd].
  destruct (Hl k0 v0) as [Hp Hne]; [by left|].
  assert (c_str k0 ≠ []) as Hc by by rewrite c_str_id.
  assert (find m k0 = None) as Hf by (apply (Hnone k0 v0); by left).
  destruct (IH (__insert_helper k0 v0 m) (n + 1)%Z) as [IH1 IH2].
  - intros k1 v1 ?. apply (Hl k1 v1). by right.
  - done.
  - intros k1 v1 Hin. unfold __insert_helper.
    rewrite find_insert_other; [apply (Hnone k1 v1); by right|].
    destruct (Hl k1 v1) as [Hp1 _]; [by right|].
    rewrite !c_str_id by done. intros ->. apply Hk0, elem_of_keys. eauto.
  - unfold __insert_helper.
    pose proof (size_insert m k0 v0 Hc) as Hs. unfold size in Hs.
    rewrite Hs, Hf, Hsz. apply size_incr_mod.
  - split.
    + rewrite IH1. unfold __insert_helper.
      rewrite payloads_insert, Hf by done. lia.
    + rewrite IH2. f_equal. lia.
Qed.

(** The copy finds what the original finds. *)
Lemma find_tst_copy m k : wf_tree (root_ m) → find (tst_copy m) k = find m k.
Proof.
  intros [Hn Hb]. rewrite tst_copy_fold.
  destruct (find m k) as [v|] eqn:Hf.
  - unfold find in Hf.
    assert (c_str k ≠ []) as Hne.
    { intros Hk. by rewrite Hk, find_nil in Hf. }
    apply find_stored, elem_of_pairs in Hf; [|done].
    pose proof (fold_insert_find (pairs (root_ m)) tst_empty (c_str k) v)
      as Hc.
    unfold find in Hc |- *. rewrite c_str_idem in Hc.
    apply Hc; [|by apply NoDup_pairs|done].
    intros k0 v0. by apply pairs_keys.
  - rewrite fold_insert_other; [done|].
    intros (k1&Hk1&Hin1)%list_elem_of_fmap.
    apply elem_of_keys in Hin1 as [v1 Hin1].
    destruct (pairs_keys _ _ _ Hn Hin1) as [Hp1 _].
    rewrite (c_str_id k1) in Hk1 by done. subst k1.
    apply elem_of_pairs, (stored_find _ _ _ Hb) in Hin1.
    unfold find in Hf. congruence.
Qed.

Lemma tst_copy_valid m :
  valid m → valid (tst_copy m) ∧ size (tst_copy m) = size m.
Proof.
  intros ([Hn Hb]&Hsz&Hmax). rewrite tst_copy_fold.
  destruct (fold_insert_count (pairs (root_ m)) tst_empty 0) as [Hp Hs].
  - intros k0 v0. by apply pairs_keys.
  - by apply NoDup_pairs.
  - intros k0 v0 Hin. unfold find. simpl. by destruct (c_str k0).
  - done.
  - rewrite length_pairs in Hp, Hs. simpl in Hp.
    assert (size_ (foldl (λ mb kv, __insert_helper kv.1 kv.2 mb) tst_empty
                     (pairs (root_ m))) = size_ m) as Hsize.
    { rewrite Hs, Z.add_0_l, Hsz. apply Z.mod_small.
      unfold SIZE_MAX in Hmax. lia. }
    split; [|done]. split; [by apply fold_insert_wf|].
    rewrite Hsize, Hp. done.
Qed.

End copy_theory.

(** ** Store layer: the pointer programs compute the tree functions *)

Section store_theory.
Context {Ch : Type} `{!CharT Ch} `{!CompOrder Ch} {T : Type}.
Implicit Types (h : mem Ch T) (ns : list (cell Ch T)) (p q : node_ptr).
Implicit Types (t lo hi eq : tnode Ch T) (F G : gset nat) (s k : list Ch).

Lemma tree_at_dom ns p t F : tree_at ns p t F → ∀ l, l ∈ F → l < length ns.
Proof.
  induction 1 as [|l c plo phi peq d lo hi eq Flo Fhi Feq Hl _ IHlo _ IHhi _ IHeq];
    intros a.
  - by intros ?%not_elem_of_empty.
  - rewrite !elem_of_union, elem_of_singleton.
    intros [[[->|?]|?]|?]; eauto using lookup_lt_Some.
Qed.

(** A tree only depends on the cells of its footprint. *)
Lemma tree_at_frame ns ns' p t F :
  tree_at ns p t F → (∀ l, l ∈ F → ns' !! l = ns !! l) → tree_at ns' p t F.
Proof.
  induction 1 as [|l c plo phi peq d lo hi eq Flo Fhi Feq Hl _ IHlo _ IHhi _ IHeq];
    intros Hfr; [constructor|].
  apply (tree_at_node ns' l c plo phi peq d); try done.
  - rewrite Hfr; [done|set_solver].
  - apply IHlo. intros a Ha. apply Hfr. set_solver.
  - apply IHhi. intros a Ha. apply Hfr. set_solver.
  - apply IHeq. intros a Ha. apply Hfr. set_solver.
Qed.

Lemma tree_at_alter ns p t F l (f : cell Ch T → cell Ch T) :
  tree_at ns p t F → l ∉ F → tree_at (alter f l ns) p t F.
Proof.
  intros Ht Hl. apply (tree_at_frame ns); [done|].
  intros a Ha. apply list_lookup_alter_ne. by intros ->.
Qed.

Lemma tree_at_count ns p t F :
  tree_at ns p t F → base.size F = node_count t.
Proof.
  induction 1 as [|l c plo phi peq d lo hi eq Flo Fhi Feq Hl _ IHlo _ IHhi _ IHeq].
  - apply size_empty.
  - rewrite !size_union, size_singleton by set_solver. simpl. lia.
Qed.

Lemma height_le_count t : height t ≤ node_count t.
Proof. induction t; simpl; lia. Qed.

(** The fuel the public entry points supply covers any tree in the
    store. *)
Lemma tree_at_height ns p t F : tree_at ns p t F → height t ≤ length ns.
Proof.
  intros Ht. etrans; [apply height_le_count|].
  rewrite <- (tree_at_count _ _ _ _ Ht).
  rewrite <- (size_set_seq (C:=gset nat) 0 (length ns)).
  apply subseteq_size. intros a Ha. apply elem_of_set_seq.
  pose proof (tree_at_dom _ _ _ _ Ht a Ha). lia.
Qed.

Lemma h_find_refines fuel h p t F s :
  tree_at (nodes h) p t F → height t < fuel →
  h_find fuel h p s = Some (find_loop t s).
Proof.
  intros Ht. revert fuel s.
  induction Ht as [|l c plo phi peq d lo hi eq Flo Fhi Feq Hl _ IHlo _ IHhi _ IHeq];
    intros [|fuel] s Hf; simpl in *; try lia; [done|].
  rewrite Hl. simpl. three_way (deref s) c.
  - apply IHlo. lia.
  - destruct (tail s); [done|]. apply IHeq. lia.
  - apply IHhi. lia.
Qed.

Lemma obj_find_models h a (m : tst_map Ch T) F (str : tstring Ch) :
  models h a m F → obj_find a str h = Some (find m str).
Proof.
  intros (r&Ho&Ht). unfold obj_find. rewrite Ho. bind_step.
  apply (h_find_refines _ _ _ _ F); [done|].
  pose proof (tree_at_height _ _ _ _ Ht). lia.
Qed.

Lemma obj_size_models h a (m : tst_map Ch T) F :
  models h a m F → obj_size a h = Some (size m).
Proof. intros (r&Ho&Ht). unfold obj_size. by rewrite Ho. Qed.

(** *** Insertion *)

Lemma alter_is_insert {A} (f : A → A) (l : list A) i x :
  l !! i = Some x → alter f i l = <[i := f x]> l.
Proof.
  intros Hx. apply list_eq. intros j. destruct (decide (i = j)) as [->|Hne].
  - rewrite list_lookup_alter_eq, Hx, list_lookup_insert_eq; [done|].
    by eapply lookup_lt_Some.
  - by rewrite list_lookup_alter_ne, list_lookup_insert_ne.
Qed.

Lemma object_eta (o : object) : Object (o_root o) (o_size o) = o.
Proof. by destruct o. Qed.

Lemma grows_refl ns F : grows ns ns F F.
Proof. unfold grows. split_and!; auto. Qed.

(** A tree away from the footprint of a call is still there after it. *)
Lemma grows_outside ns ns' F F' G p t :
  grows ns ns' F F' → tree_at ns p t G → G ## F →
  tree_at ns' p t G ∧ G ## F'.
Proof.
  intros (Hsub&Hnew&Hlen&Hfr) Ht Hdisj.
  pose proof (tree_at_dom _ _ _ _ Ht) as Hdom. split.
  - apply (tree_at_frame ns); [done|]. intros a Ha.
    apply Hfr; [set_solver|by apply Hdom].
  - intros a Ha Ha'. destruct (Hnew a Ha') as [?|?]; [set_solver|].
    specialize (Hdom a Ha). lia.
Qed.

(** The call on a null pointer: a chain of fresh nodes. *)
Lemma h_insert_null_refines this v s :
  ∀ fuel h o,
    objects h !! this = Some o → length s < fuel →
    ∃ q h' F',
      h_insert fuel this None s v h
        = Some (q, (__insert_null s v (o_size o)).2, h')
      ∧ tree_at (nodes h') q (__insert_null s v (o_size o)).1.1 F'
      ∧ grows (nodes h) (nodes h') ∅ F'
      ∧ objects h'
        = <[this := Object (o_root o) (__insert_null s v (o_size o)).1.2]>
            (objects h).
Proof.
  induction s as [|x [|y s2] IH]; intros [|fuel] h o Ho Hf;
    simpl in Hf; try lia.
  - exists None, h, ∅. simpl. split_and!; [done|constructor|apply grows_refl|].
    by rewrite object_eta, list_insert_id.
  - set (l := length (nodes h)).
    set (h1 := upd_object this incr_size
                 (Mem (nodes h ++ [Cell x None None None None]) (objects h))).
    exists (Some l), (upd_node l (set_pdata (Some v)) h1),
      ({[l]} ∪ ∅ ∪ ∅ ∪ ∅).
    assert ((nodes h ++ [Cell x None None None None]) !! l
            = Some (Cell x None None None None)) as Hl.
    { by apply list_lookup_middle. }
    split_and!.
    + simpl. unfold l in Hl. rewrite Hl. simpl.
      by rewrite comp_irrefl, equiv_ch_refl.
    + simpl. apply (tree_at_node _ l x None None None (Some v));
        [|constructor..|set_solver|set_solver|set_solver|set_solver].
      by rewrite list_lookup_alter_eq, Hl.
    + unfold grows. simpl. rewrite length_alter, length_app. simpl.
      split_and!; [set_solver| |lia|].
      * intros a. rewrite !elem_of_union, elem_of_singleton.
        intros [[[->|?]|?]|?]; [right; unfold l; lia|set_solver..].
      * intros a _ Ha. rewrite list_lookup_alter_ne by (unfold l; lia).
        by apply lookup_app_l.
    + simpl. by rewrite (alter_is_insert _ _ _ _ Ho).
  - set (l := length (nodes h)).
    set (h1 := Mem (nodes h ++ [Cell x None None None None]) (objects h)).
    assert (nodes h1 !! l = Some (Cell x None None None None)) as Hl.
    { by apply list_lookup_middle. }
    destruct (IH fuel h1 o Ho) as (q&h2&F2&Hrun&Ht2&Hg&Hobj); [simpl; lia|].
    destruct Hg as (_&Hnew&Hlen&Hfr).
    assert (length (nodes h1) = S l) as Hlen1.
    { simpl. rewrite length_app. simpl. unfold l. lia. }
    assert (l ∉ F2) as HlF2.
    { intros Ha. destruct (Hnew l Ha) as [?|?]; [set_solver|lia]. }
    assert (nodes h2 !! l = Some (Cell x None None None None)) as Hl2.
    { rewrite Hfr; [done|set_solver|lia]. }
    rewrite insert_null_step.
    destruct (__insert_null (y :: s2) v (o_size o)) as [[e sz'] pos] eqn:E.
    exists (Some l), (upd_node l (set_eqkid q) h2), ({[l]} ∪ ∅ ∪ ∅ ∪ F2).
    split_and!.
    + change (h_insert (S fuel) this None (x :: y :: s2) v h) with
        (n ← nodes h1 !! l;
         if comp x (splitchar n) then
           '(q, pos, h) ← h_insert fuel this (lokid n) (x :: y :: s2) v h1;
           Some (Some l, pos, upd_node l (set_lokid q) h)
         else if equiv_ch x (splitchar n) then
           '(q, pos, h) ← h_insert fuel this (eqkid n) (y :: s2) v h1;
           Some (Some l, pos, upd_node l (set_eqkid q) h)
         else
           '(q, pos, h) ← h_insert fuel this (hikid n) (x :: y :: s2) v h1;
           Some (Some l, pos, upd_node l (set_hikid q) h)).
      rewrite Hl. simpl. rewrite comp_irrefl, equiv_ch_refl. simpl.
      by rewrite Hrun.
    + simpl. apply (tree_at_node _ l x None None q None);
        [|constructor|constructor| |clear -HlF2; set_solver
         |set_solver|set_solver|set_solver].
      * by rewrite list_lookup_alter_eq, Hl2.
      * by apply tree_at_alter.
    + unfold grows. simpl. rewrite length_alter.
      split_and!; [set_solver| |lia|].
      * intros a. rewrite !elem_of_union, elem_of_singleton.
        intros [[[->|?]|?]|Ha]; [right; unfold l; lia|set_solver..|].
        destruct (Hnew a Ha) as [?|?]; [set_solver|right; unfold l in *; lia].
      * intros a _ Ha. rewrite list_lookup_alter_ne by (unfold l; lia).
        rewrite Hfr; [|set_solver|lia]. by apply lookup_app_l.
    + done.
Qed.

(** A node whose one subtree was rebuilt by a call, and whose link to it
    was then overwritten: the three cases share this step. *)
Lemma tree_at_relink ns ns1 l (n : cell Ch T) (f : cell Ch T → cell Ch T)
    G G' R q t' F :
  ns !! l = Some n →
  grows ns ns1 G G' →
  tree_at ns1 q t' G' →
  (∀ a, a ∈ F → a < length ns) →
  F = {[l]} ∪ G ∪ R → l ∉ G → l ∉ R → G ## R →
  alter f l ns1 !! l = Some (f n)
  ∧ tree_at (alter f l ns1) q t' G'
  ∧ l ∉ G' ∧ G' ## R
  ∧ grows ns (alter f l ns1) F ({[l]} ∪ G' ∪ R)
  ∧ (∀ p t H, tree_at ns p t H → H ⊆ R → tree_at (alter f l ns1) p t H).
Proof.
  intros Hl (Hsub&Hnew&Hlen&Hfr) Ht Hdom -> HlG HlR Hdisj.
  assert (l < length ns) as Hll by (apply Hdom; set_solver).
  assert (l ∉ G') as HlG'.
  { intros Ha. destruct (Hnew l Ha); [done|lia]. }
  assert (G' ## R) as Hdisj'.
  { intros a Ha Ha'. destruct (Hnew a Ha) as [?|?]; [set_solver|].
    assert (a < length ns) by (apply Hdom; set_solver). lia. }
  split_and!; try done.
  - rewrite list_lookup_alter_eq, Hfr, Hl; done.
  - by apply tree_at_alter.
  - unfold grows. rewrite length_alter. split_and!; [set_solver| |done|].
    + intros a. rewrite !elem_of_union, elem_of_singleton.
      intros [[->|Ha]|?]; [set_solver| |set_solver].
      destruct (Hnew a Ha); [set_solver|auto].
    + intros a Ha Hlt. rewrite list_lookup_alter_ne by set_solver.
      apply Hfr; [set_solver|done].
  - intros p t H Hp HH. apply tree_at_alter; [|set_solver].
    apply (tree_at_frame ns); [done|]. intros a Ha.
    apply Hfr; [set_solver|apply Hdom; set_solver].
Qed.

(** [h_insert] computes [__insert], inside its footprint and in fresh
    cells. *)
Lemma h_insert_refines this v t :
  ∀ fuel h p F s o,
    tree_at (nodes h) p t F →
    objects h !! this = Some o →
    height t + length s < fuel →
    ∃ q h' F',
      h_insert fuel this p s v h
        = Some (q, (__insert t s v (o_size o)).2, h')
      ∧ tree_at (nodes h') q (__insert t s v (o_size o)).1.1 F'
      ∧ grows (nodes h) (nodes h') F F'
      ∧ objects h'
        = <[this := Object (o_root o) (__insert t s v (o_size o)).1.2]>
            (objects h).
Proof.
  induction t as [|c lo IHlo hi IHhi eq IHeq d]; intros fuel h p F s o Ht Ho Hf.
  { inversion Ht; subst. by apply h_insert_null_refines. }
  inversion Ht as [|l c' plo phi peq d' lo' hi' eq' Flo Fhi Feq Hl Htlo Hthi Hteq
                    HlF Hlh Hle Hhe]; subst.
  pose proof (tree_at_dom _ _ _ _ Ht) as Hdom.
  destruct fuel as [|fuel]; [lia|]. simpl in Hf.
  destruct s as [|x s1].
  { exists (Some l), h, ({[l]} ∪ Flo ∪ Fhi ∪ Feq). simpl.
    split_and!; [done|done|apply grows_refl|].
    by rewrite object_eta, list_insert_id. }
  simpl h_insert. rewrite Hl. bind_step. simpl __insert.
  simpl splitchar. simpl lokid. simpl hikid. simpl eqkid. simpl pdata.
  three_way x c.
  - destruct (IHlo fuel h plo Flo (x :: s1) o Htlo Ho)
      as (q&h1&Flo'&Hrun&Ht1&Hg&Hobj); [simpl in *; lia|].
    rewrite Hrun. bind_step.
    destruct (__insert lo (x :: s1) v (o_size o)) as [[lo1 sz1] pos1] eqn:E.
    simpl in Hobj, Ht1 |- *.
    destruct (tree_at_relink (nodes h) (nodes h1) l _ (set_lokid q)
                Flo Flo' (Fhi ∪ Feq) q lo1 ({[l]} ∪ Flo ∪ Fhi ∪ Feq)
                Hl Hg Ht1 Hdom) as (Hl'&Ht'&HlG'&Hd'&Hg'&Hrest);
      [clear -HlF Hlh Hle Hhe; set_solver..|].
    exists (Some l), (upd_node l (set_lokid q) h1), ({[l]} ∪ Flo' ∪ Fhi ∪ Feq).
    split_and!; [done| | |done].
    + simpl. apply (tree_at_node _ l c q phi peq d);
        [exact Hl'|exact Ht'| | |clear -HlG' HlF; set_solver
         |clear -Hd'; set_solver|clear -Hd'; set_solver|done].
      * apply (Hrest _ _ Fhi); [done|set_solver].
      * apply (Hrest _ _ Feq); [done|set_solver].
    + simpl. replace ({[l]} ∪ Flo' ∪ Fhi ∪ Feq)
        with ({[l]} ∪ Flo' ∪ (Fhi ∪ Feq)) by (clear; set_solver). done.
  - subst x. destruct s1 as [|y s2].
    + assert (∀ h0, nodes h0 = nodes h →
                tree_at (nodes (upd_node l (set_pdata (Some v)) h0)) (Some l)
                  (Node c lo hi eq (Some v)) ({[l]} ∪ Flo ∪ Fhi ∪ Feq)
                ∧ grows (nodes h) (nodes (upd_node l (set_pdata (Some v)) h0))
                    ({[l]} ∪ Flo ∪ Fhi ∪ Feq) ({[l]} ∪ Flo ∪ Fhi ∪ Feq))
        as Hstore.
      { intros h0 Hh0. simpl. rewrite Hh0. split.
        - apply (tree_at_node _ l c plo phi peq (Some v)); try done.
          + by rewrite list_lookup_alter_eq, Hl.
          + apply tree_at_alter; [done|clear -HlF; set_solver].
          + apply tree_at_alter; [done|clear -HlF; set_solver].
          + apply tree_at_alter; [done|clear -HlF; set_solver].
        - unfold grows. rewrite length_alter. split_and!; [done|auto|done|].
          intros a Ha _. apply list_lookup_alter_ne. clear -Ha. set_solver. }
      destruct d as [w|].
      * exists (Some l), (upd_node l (set_pdata (Some v)) h),
          ({[l]} ∪ Flo ∪ Fhi ∪ Feq).
        destruct (Hstore h eq_refl) as [? ?].
        split_and!; [done|done|done|].
        simpl. by rewrite object_eta, list_insert_id.
      * exists (Some l),
          (upd_node l (set_pdata (Some v)) (upd_object this incr_size h)),
          ({[l]} ∪ Flo ∪ Fhi ∪ Feq).
        destruct (Hstore (upd_object this incr_size h) eq_refl) as [? ?].
        split_and!; [done|done|done|].
        simpl. by rewrite (alter_is_insert _ _ _ _ Ho).
    + destruct (IHeq fuel h peq Feq (y :: s2) o Hteq Ho)
        as (q&h1&Feq'&Hrun&Ht1&Hg&Hobj); [simpl in *; lia|].
      rewrite Hrun. bind_step.
      destruct (__insert eq (y :: s2) v (o_size o)) as [[eq1 sz1] pos1] eqn:E.
      simpl in Hobj, Ht1 |- *.
      destruct (tree_at_relink (nodes h) (nodes h1) l _ (set_eqkid q)
                  Feq Feq' (Flo ∪ Fhi) q eq1 ({[l]} ∪ Flo ∪ Fhi ∪ Feq)
                  Hl Hg Ht1 Hdom) as (Hl'&Ht'&HlG'&Hd'&Hg'&Hrest);
        [clear -HlF Hlh Hle Hhe; set_solver..|].
      exists (Some l), (upd_node l (set_eqkid q) h1), ({[l]} ∪ Flo ∪ Fhi ∪ Feq').
      split_and!; [done| | |done].
      * simpl. apply (tree_at_node _ l c plo phi q d);
          [exact Hl'| | |exact Ht'|clear -HlG' HlF; set_solver
           |done|clear -Hd'; set_solver|clear -Hd'; set_solver].
        -- apply (Hrest _ _ Flo); [done|set_solver].
        -- apply (Hrest _ _ Fhi); [done|set_solver].
      * simpl. replace ({[l]} ∪ Flo ∪ Fhi ∪ Feq')
          with ({[l]} ∪ Feq' ∪ (Flo ∪ Fhi)) by (clear; set_solver). done.
  - destruct (IHhi fuel h phi Fhi (x :: s1) o Hthi Ho)
      as (q&h1&Fhi'&Hrun&Ht1&Hg&Hobj); [simpl in *; lia|].
    rewrite Hrun. bind_step.
    destruct (__insert hi (x :: s1) v (o_size o)) as [[hi1 sz1] pos1] eqn:E.
    simpl in Hobj, Ht1 |- *.
    destruct (tree_at_relink (nodes h) (nodes h1) l _ (set_hikid q)
                Fhi Fhi' (Flo ∪ Feq) q hi1 ({[l]} ∪ Flo ∪ Fhi ∪ Feq)
                Hl Hg Ht1 Hdom) as (Hl'&Ht'&HlG'&Hd'&Hg'&Hrest);
      [clear -HlF Hlh Hle Hhe; set_solver..|].
    exists (Some l), (upd_node l (set_hikid q) h1), ({[l]} ∪ Flo ∪ Fhi' ∪ Feq).
    split_and!; [done| | |done].
    + simpl. apply (tree_at_node _ l c plo q peq d);
        [exact Hl'| |exact Ht'| |clear -HlG' HlF; set_solver
         |clear -Hd'; set_solver|done|clear -Hd'; set_solver].
      * apply (Hrest _ _ Flo); [done|set_solver].
      * apply (Hrest _ _ Feq); [done|set_solver].
    + simpl. replace ({[l]} ∪ Flo ∪ Fhi' ∪ Feq)
        with ({[l]} ∪ Fhi' ∪ (Flo ∪ Feq)) by (clear; set_solver). done.
Qed.

(** Another container, away from the footprint of a call, is still
    there after it. *)
Lemma models_frame h h' F F' b (mb : tst_map Ch T) Fb :
  grows (nodes h) (nodes h') F F' →
  objects h' !! b = objects h !! b →
  models h b mb Fb → Fb ## F →
  models h' b mb Fb ∧ Fb ## F'.
Proof.
  intros Hg Hobj (r&Ho&Ht) Hdisj.
  destruct (grows_outside _ _ _ _ _ _ _ Hg Ht Hdisj) as [Ht' Hd'].
  split; [|done]. exists r. by rewrite Hobj.
Qed.

Lemma obj_insert_models h a (m : tst_map Ch T) F (str : tstring Ch) v :
  models h a m F →
  ∃ h' F',
    obj_insert a str v h = Some ((insert m str v).2, h')
    ∧ models h' a (insert m str v).1 F'
    ∧ grows (nodes h) (nodes h') F F'
    ∧ (∀ b, b ≠ a → objects h' !! b = objects h !! b).
Proof.
  intros (r&Ho&Ht). unfold obj_insert. rewrite Ho. bind_step.
  pose proof (tree_at_height _ _ _ _ Ht) as Hh.
  destruct (h_insert_refines a v (root_ m)
              (S (length (nodes h) + length (c_str str))) h r F (c_str str)
              _ Ht Ho) as (q&h1&F'&Hrun&Ht1&Hg&Hobj); [simpl; lia|].
  cbn [o_root o_size] in *. rewrite Hrun. bind_step.
  rewrite insert_unfold. simpl.
  exists (upd_object a (set_root q) h1), F'. split_and!; [done| |done|].
  - exists q. simpl. split; [|done].
    rewrite list_lookup_alter_eq, Hobj, list_lookup_insert_eq; [done|].
    by eapply lookup_lt_Some.
  - intros b Hb. simpl.
    by rewrite list_lookup_alter_ne, Hobj, list_lookup_insert_ne.
Qed.

(** *** Removal *)

Lemma h_remove_refines this t :
  ∀ fuel h p F s o,
    tree_at (nodes h) p t F →
    objects h !! this = Some o →
    height t < fuel →
    ∃ h',
      h_remove fuel this p s h = Some ((remove_loop t s (o_size o)).2, h')
      ∧ tree_at (nodes h') p (remove_loop t s (o_size o)).1.1 F
      ∧ grows (nodes h) (nodes h') F F
      ∧ objects h'
        = <[this := Object (o_root o) (remove_loop t s (o_size o)).1.2]>
            (objects h).
Proof.
  induction t as [|c lo IHlo hi IHhi eq IHeq d]; intros fuel h p F s o Ht Ho Hf.
  { inversion Ht; subst. destruct fuel as [|fuel]; [simpl in Hf; lia|].
    exists h. simpl. split_and!; [done|constructor|apply grows_refl|].
    by rewrite object_eta, list_insert_id. }
  inversion Ht as [|l c' plo phi peq d' lo' hi' eq' Flo Fhi Feq Hl Htlo Hthi Hteq
                    HlF Hlh Hle Hhe]; subst.
  pose proof (tree_at_dom _ _ _ _ Ht) as Hdom.
  destruct fuel as [|fuel]; [simpl in Hf; lia|]. simpl in Hf.
  simpl h_remove. rewrite Hl. bind_step. simpl remove_loop.
  simpl splitchar. simpl lokid. simpl hikid. simpl eqkid. simpl pdata.
  three_way (deref s) c.
  - destruct (IHlo fuel h plo Flo s o Htlo Ho) as (h1&Hrun&Ht1&Hg&Hobj); [lia|].
    rewrite Hrun.
    destruct (remove_loop lo s (o_size o)) as [[lo1 sz1] r1] eqn:E.
    simpl in Hobj, Ht1 |- *.
    destruct (tree_at_relink (nodes h) (nodes h1) l _ id
                Flo Flo (Fhi ∪ Feq) plo lo1 ({[l]} ∪ Flo ∪ Fhi ∪ Feq)
                Hl Hg Ht1 Hdom) as (Hl'&Ht'&HlG'&Hd'&Hg'&Hrest);
      [clear -HlF Hlh Hle Hhe; set_solver..|].
    rewrite list_alter_id in Hl', Ht', Hg', Hrest by done.
    exists h1. split_and!; [done| | |done].
    + apply (tree_at_node _ l c plo phi peq d);
        [exact Hl'|exact Ht'| | |done..].
      * apply (Hrest _ _ Fhi); [done|set_solver].
      * apply (Hrest _ _ Feq); [done|set_solver].
    + replace ({[l]} ∪ Flo ∪ Fhi ∪ Feq)
        with ({[l]} ∪ Flo ∪ (Fhi ∪ Feq)) at 2 by (clear; set_solver). done.
  - assert (∀ r : tnode Ch T * Z * bool,
              (let '(eq', sz', r0) := r in
                  (Node c lo hi eq' d, sz', r0))
                 = (Node c lo hi r.1.1 d, r.1.2, r.2)) as Hlet.
    { by intros [[??]?]. }
    assert ((tail s = [] ∧ is_Some d) ∨ ¬ (tail s = [] ∧ is_Some d)) as [[Hs [w ->]]|Hno].
    { destruct (tail s), d; eauto; right; intros [? [? ?]]; done. }
    + rewrite Hs.
      exists (upd_node l (set_pdata None) (upd_object this decr_size h)).
      simpl. split_and!; [done| | |].
      * apply (tree_at_node _ l c plo phi peq None); try done.
        -- by rewrite list_lookup_alter_eq, Hl.
        -- apply tree_at_alter; [done|clear -HlF; set_solver].
        -- apply tree_at_alter; [done|clear -HlF; set_solver].
        -- apply tree_at_alter; [done|clear -HlF; set_solver].
      * unfold grows. rewrite length_alter. split_and!; [done|auto|done|].
        intros a Ha _. apply list_lookup_alter_ne. clear -Ha. set_solver.
      * by rewrite (alter_is_insert _ _ _ _ Ho).
    + destruct (IHeq fuel h peq Feq (tail s) o Hteq Ho)
        as (h1&Hrun&Ht1&Hg&Hobj); [lia|].
      assert (match tail s, d with
              | [], Some _ =>
                  Some (true, upd_node l (set_pdata None)
                                (upd_object this decr_size h))
              | _, _ => h_remove fuel this peq (tail s) h
              end = h_remove fuel this peq (tail s) h) as ->.
      { destruct (tail s), d; try done. destruct Hno. eauto. }
      assert (match tail s, d with
              | [], Some _ => (Node c lo hi eq None, size_decr (o_size o), true)
              | _, _ =>
                  let '(eq', sz', r) := remove_loop eq (tail s) (o_size o) in
                  (Node c lo hi eq' d, sz', r)
              end = (Node c lo hi (remove_loop eq (tail s) (o_size o)).1.1 d,
                     (remove_loop eq (tail s) (o_size o)).1.2,
                     (remove_loop eq (tail s) (o_size o)).2)) as ->.
      { rewrite <- Hlet. destruct (tail s), d; try done. destruct Hno. eauto. }
      rewrite Hrun. simpl.
      destruct (tree_at_relink (nodes h) (nodes h1) l _ id
                  Feq Feq (Flo ∪ Fhi) peq _ ({[l]} ∪ Flo ∪ Fhi ∪ Feq)
                  Hl Hg Ht1 Hdom) as (Hl'&Ht'&HlG'&Hd'&Hg'&Hrest);
        [clear -HlF Hlh Hle Hhe; set_solver..|].
      rewrite list_alter_id in Hl', Ht', Hg', Hrest by done.
      exists h1. split_and!; [done| | |done].
      * apply (tree_at_node _ l c plo phi peq d);
          [exact Hl'| | |exact Ht'|done..].
        -- apply (Hrest _ _ Flo); [done|set_solver].
        -- apply (Hrest _ _ Fhi); [done|set_solver].
      * replace ({[l]} ∪ Flo ∪ Fhi ∪ Feq)
          with ({[l]} ∪ Feq ∪ (Flo ∪ Fhi)) at 2 by (clear; set_solver). done.
  - destruct (IHhi fuel h phi Fhi s o Hthi Ho) as (h1&Hrun&Ht1&Hg&Hobj); [lia|].
    rewrite Hrun.
    destruct (remove_loop hi s (o_size o)) as [[hi1 sz1] r1] eqn:E.
    simpl in Hobj, Ht1 |- *.
    destruct (tree_at_relink (nodes h) (nodes h1) l _ id
                Fhi Fhi (Flo ∪ Feq) phi hi1 ({[l]} ∪ Flo ∪ Fhi ∪ Feq)
                Hl Hg Ht1 Hdom) as (Hl'&Ht'&HlG'&Hd'&Hg'&Hrest);
      [clear -HlF Hlh Hle Hhe; set_solver..|].
    rewrite list_alter_id in Hl', Ht', Hg', Hrest by done.
    exists h1. split_and!; [done| | |done].
    + apply (tree_at_node _ l c plo phi peq d);
        [exact Hl'| |exact Ht'| |done..].
      * apply (Hrest _ _ Flo); [done|set_solver].
      * apply (Hrest _ _ Feq); [done|set_solver].
    + replace ({[l]} ∪ Flo ∪ Fhi ∪ Feq)
        with ({[l]} ∪ Fhi ∪ (Flo ∪ Feq)) at 2 by (clear; set_solver). done.
Qed.

Lemma obj_remove_models h a (m : tst_map Ch T) F (str : tstring Ch) :
  models h a m F →
  ∃ h',
    obj_remove a str h = Some ((remove m str).2, h')
    ∧ models h' a (remove m str).1 F
    ∧ grows (nodes h) (nodes h') F F
    ∧ (∀ b, b ≠ a → objects h' !! b = objects h !! b).
Proof.
  intros (r&Ho&Ht). unfold obj_remove. rewrite Ho. bind_step.
  pose proof (tree_at_height _ _ _ _ Ht) as Hh.
  destruct (h_remove_refines a (root_ m) (S (length (nodes h))) h r F
              (c_str str) _ Ht Ho) as (h1&Hrun&Ht1&Hg&Hobj); [lia|].
  cbn [o_root o_size] in *. rewrite Hrun, remove_unfold. simpl.
  exists h1. split_and!; [done| |done|].
  - exists r. split; [|done]. rewrite Hobj, list_lookup_insert_eq; [done|].
    by eapply lookup_lt_Some.
  - intros b Hb. by rewrite Hobj, list_lookup_insert_ne.
Qed.

(** *** Traversal with a visitor that writes to memory *)

Lemma foldl_under {X} (g : tstring Ch → T → X → X) cur (c : Ch)
    (l : list (list Ch * T)) (x : X) :
  foldl (λ x kv, g (cur ++ kv.1) kv.2 x) x (under c <$> l)
  = foldl (λ x kv, g ((cur ++ [c]) ++ kv.1) kv.2 x) x l.
Proof.
  revert x. induction l as [|[k v] l IH]; intros x; simpl; [done|].
  by rewrite IH, <- app_assoc.
Qed.

(** [J] relates memory to an abstract visitor state; the visitor keeps
    it, and under it the traversed tree stays where [ns0] has it.  Then
    [h_travel] runs the visitor over [pairs t] in order and gives
    [cur_str] back unchanged. *)
Lemma h_travel_refines {X} (J : mem Ch T → X → Prop)
    (g : tstring Ch → T → X → X)
    (f : tstring Ch → T → mem Ch T → option (mem Ch T)) ns0 p t F :
  tree_at ns0 p t F →
  (∀ h x, J h x → ∀ a, a ∈ F → nodes h !! a = ns0 !! a) →
  (∀ h x k v, J h x → ∃ h', f k v h = Some h' ∧ J h' (g k v x)) →
  ∀ fuel h x cur, height t < fuel → J h x →
    ∃ h', h_travel fuel p f cur h = Some (cur, h')
          ∧ J h' (foldl (λ x kv, g (cur ++ kv.1) kv.2 x) x (pairs t)).
Proof.
  intros Ht. revert J.
  induction Ht as [|l c plo phi peq d lo hi eq Flo Fhi Feq Hl _ IHlo _ IHhi _ IHeq];
    intros J Hfr Hstep [|fuel] h x cur Hf HJ; simpl in Hf; try lia.
  { exists h. by split. }
  assert (∀ h x, J h x → nodes h !! l = Some (Cell c plo phi peq d)) as Hread.
  { intros h0 x0 Hx0. rewrite (Hfr h0 x0 Hx0); [done|set_solver]. }
  destruct (IHlo J) with (fuel := fuel) (h := h) (x := x) (cur := cur)
    as (h1&Hr1&HJ1); [|done|lia|done|].
  { intros h0 x0 Hx0 a Ha. apply (Hfr h0 x0 Hx0). set_solver. }
  destruct (IHeq J) with (fuel := fuel) (h := h1) (cur := cur ++ [c])
    (x := foldl (λ x kv, g (cur ++ kv.1) kv.2 x) x (pairs lo))
    as (h2&Hr2&HJ2); [|done|lia|done|].
  { intros h0 x0 Hx0 a Ha. apply (Hfr h0 x0 Hx0). set_solver. }
  destruct (IHhi J) with (fuel := fuel) (h := h2) (cur := cur)
    (x := foldl (λ x kv, g ((cur ++ [c]) ++ kv.1) kv.2 x)
            (foldl (λ x kv, g (cur ++ kv.1) kv.2 x) x (pairs lo)) (pairs eq))
    as (h3&Hr3&HJ3); [|done|lia|done|].
  { intros h0 x0 Hx0 a Ha. apply (Hfr h0 x0 Hx0). set_solver. }
  simpl pairs. rewrite !foldl_app, foldl_under.
  simpl h_travel. rewrite (Hread _ _ HJ). bind_step. simpl lokid.
  rewrite Hr1. bind_step. rewrite (Hread _ _ HJ1). bind_step.
  simpl eqkid. simpl splitchar. rewrite Hr2. bind_step.
  rewrite removelast_snoc, (Hread _ _ HJ2). bind_step. simpl hikid.
  rewrite Hr3. bind_step. rewrite (Hread _ _ HJ3). bind_step.
  simpl pdata. simpl splitchar. destruct d as [v|]; simpl self_pair.
  - destruct (Hstep _ _ (cur ++ [c]) v HJ3) as (h4&Hr4&HJ4).
    rewrite Hr4. bind_step. exists h4. split; [done|]. exact HJ4.
  - exists h3. split; [done|]. exact HJ3.
Qed.

(** *** The copy constructor *)

Lemma copy_construct_models h a (ma : tst_map Ch T) Fa :
  models h a ma Fa →
  ∃ h' Fb,
    copy_construct a h = Some (length (objects h), h')
    ∧ a ≠ length (objects h)
    ∧ models h' a ma Fa
    ∧ models h' (length (objects h)) (tst_copy ma) Fb
    ∧ Fa ## Fb.
Proof.
  intros Hma. pose proof Hma as (r&Ho&Ht).
  set (b := length (objects h)).
  set (h0 := Mem (nodes h) (objects h ++ [Object None 0])).
  assert (a ≠ b) as Hab.
  { apply lookup_lt_Some in Ho. unfold b. lia. }
  assert (objects h0 !! a = Some (Object r (size_ ma))) as Ho0.
  { simpl. rewrite lookup_app_l; [done|]. by eapply lookup_lt_Some. }
  set (J := λ (h1 : mem Ch T) (mb : tst_map Ch T),
         ∃ Fb, models h1 b mb Fb ∧ Fa ## Fb ∧ models h1 a ma Fa
               ∧ ∀ l, l ∈ Fa → nodes h1 !! l = nodes h !! l).
  assert (J h0 tst_empty) as HJ0.
  { exists ∅. split_and!; [|set_solver| |done].
    - exists None. split; [|constructor]. simpl.
      by apply list_lookup_middle.
    - by exists r. }
  destruct (h_travel_refines J __insert_helper (h_insert_helper b)
              (nodes h) r (root_ ma) Fa Ht) with
    (fuel := S (length (nodes h0))) (h := h0) (x := (tst_empty : tst_map Ch T))
    (cur := ([] : list Ch)) as (h'&Hrun&(Fb&Hmb&Hdisj&Hma'&_)).
  - intros h1 mb (Fb&_&_&_&Hfr). exact Hfr.
  - intros h1 mb k v (Fb&Hmb&Hdisj&Hma1&Hfr).
    destruct (obj_insert_models h1 b mb Fb k v Hmb) as (h2&Fb'&Hr&Hmb'&Hg&Hob).
    exists h2. split.
    { unfold h_insert_helper. by rewrite Hr. }
    destruct (models_frame h1 h2 Fb Fb' a ma Fa Hg) as [Hma2 Hd2];
      [by apply Hob|done|done|].
    exists Fb'. split_and!; [done|done|done|].
    intros l Hl. rewrite <- (Hfr l Hl).
    destruct Hg as (_&_&_&Hg). apply Hg; [set_solver|].
    destruct Hma1 as (r1&_&Ht1). by apply (tree_at_dom _ _ _ _ Ht1).
  - pose proof (tree_at_height _ _ _ _ Ht). simpl. lia.
  - done.
  - exists h', Fb. unfold copy_construct. fold b. fold h0.
    rewrite Ho0. bind_step. cbn [o_root]. rewrite Hrun. bind_step.
    split_and!; [done|done|done| |done].
    rewrite tst_copy_fold. exact Hmb.
Qed.

(** *** Runs of mutations: the other container is out of reach *)

Lemma mutate_all_frame b ops :
  ∀ h a (ma mb : tst_map Ch T) Fa Fb,
    a ≠ b → models h a ma Fa → models h b mb Fb → Fa ## Fb →
    ∃ h' mb' Fb',
      mutate_all b ops h = Some h'
      ∧ models h' a ma Fa ∧ models h' b mb' Fb' ∧ Fa ## Fb'.
Proof.
  induction ops as [|op ops IH]; intros h a ma mb Fa Fb Hab Hma Hmb Hdisj.
  { exists h, mb, Fb. by split_and!. }
  simpl. destruct op as [k v|k].
  - destruct (obj_insert_models h b mb Fb k v Hmb) as (h1&Fb1&Hr&Hmb1&Hg&Hob).
    simpl. rewrite Hr. simpl.
    destruct (models_frame h h1 Fb Fb1 a ma Fa Hg) as [Hma1 Hd1];
      [by apply Hob|done|done|].
    by apply (IH h1 a ma (insert mb k v).1 Fa Fb1).
  - destruct (obj_remove_models h b mb Fb k Hmb) as (h1&Hr&Hmb1&Hg&Hob).
    simpl. rewrite Hr. simpl.
    destruct (models_frame h h1 Fb Fb a ma Fa Hg) as [Hma1 Hd1];
      [by apply Hob|done|done|].
    by apply (IH h1 a ma (remove mb k).1 Fa Fb).
Qed.

End store_theory.

(** ** The properties of the specification *)

Lemma node_count_shape {Ch T} (p : tnode Ch T) :
  node_count (shape p) = node_count p.
Proof. induction p; simpl; congruence. Qed.

(** A container built by [build] satisfies the class invariant. *)
Ltac valid_build :=
  cbn [build foldl fst snd];
  repeat first
    [ apply valid_empty
    | apply valid_insert; [|right; vm_compute; reflexivity] ].

(** A concrete key has no embedded NUL. *)
Ltac proper_key :=
  unfold proper; refine (bool_decide_unpack _ _); vm_compute; exact I.

Lemma reachable_build kvs : reachable (build kvs).
Proof.
  unfold build. generalize (reach_empty (Ch:=ascii) (T:=Z)).
  generalize (tst_empty : tst_map ascii Z).
  induction kvs as [|[k v] kvs IH]; intros m Hm; [done|].
  simpl. apply IH. by constructor.
Qed.

(** C1 (the code departs from it).  [__travel] visits a node's own pair
    after its three subtrees, so the keys do not come out in ascending
    order: after [insert("a", 1)] and [insert("b", 2)], a reachable state,
    [sequence] yields ["b"] before ["a"].  (That every present pair is
    listed exactly once does hold: [sequence_complete], [sequence_NoDup].) *)
Theorem C1_sequence_not_ascending :
  let m := build [(key "a", 1%Z); (key "b", 2%Z)] in
  reachable m
  ∧ sequence m [] = [(key "b", 2%Z); (key "a", 1%Z)]
  ∧ ¬ ascending (sequence m []).*1.
Proof.
  split_and!.
  - apply reachable_build.
  - reflexivity.
  - change (¬ ascending [key "b"; key "a"]). simpl.
    intros [H _]. apply Forall_cons in H as [H _]. vm_compute in H. done.
Qed.

(** C2.  In any container holding exactly ("cat",1), ("bat",2), ("cats",3),
    [nearsearch("cat", 1, out)] reports all three pairs, and reports no key
    whose cost against "cat" (substitutions plus length difference) exceeds
    1. *)
Theorem C2_nearsearch_cat (m : tst_map ascii Z) (out : Seq ascii Z) :
  valid m →
  (∀ k v, contains m k v
          ↔ (k, v) ∈ [(key "cat", 1%Z); (key "bat", 2%Z); (key "cats", 3%Z)]) →
  (key "cat", 1%Z) ∈ nearsearch m (key "cat") 1 out
  ∧ (key "bat", 2%Z) ∈ nearsearch m (key "cat") 1 out
  ∧ (key "cats", 3%Z) ∈ nearsearch m (key "cat") 1 out
  ∧ ∀ k v, (k, v) ∈ nearsearch m (key "cat") 1 out
           → (near_cost k (key "cat") ≤ 1)%Z.
Proof.
  intros ([Hn Hb]&_) Hm. rewrite nearsearch_reading.
  change (c_str (key "cat")) with (key "cat").
  assert (∀ k v, (k, v) ∈ near_list (root_ m) (key "cat") 1
                 ↔ contains m k v ∧ (near_cost k (key "cat") ≤ 1)%Z) as Hnear.
  { intros k v. rewrite contains_stored. by apply elem_of_near_list. }
  split_and!.
  - apply Hnear. split; [apply Hm; set_solver|by vm_compute].
  - apply Hnear. split; [apply Hm; set_solver|by vm_compute].
  - apply Hnear. split; [apply Hm; set_solver|by vm_compute].
  - intros k v Hin. by apply Hnear in Hin as [_ ?].
Qed.

Lemma C2_nearsearch_cat_witness :
  let m := build [(key "cat", 1%Z); (key "bat", 2%Z); (key "cats", 3%Z)] in
  (key "cat", 1%Z) ∈ nearsearch m (key "cat") 1 []
  ∧ (key "bat", 2%Z) ∈ nearsearch m (key "cat") 1 []
  ∧ (key "cats", 3%Z) ∈ nearsearch m (key "cat") 1 []
  ∧ ∀ k v, (k, v) ∈ nearsearch m (key "cat") 1 []
           → (near_cost k (key "cat") ≤ 1)%Z.
Proof.
  apply C2_nearsearch_cat.
  - valid_build.
  - intros k v. unfold contains.
    change (sequence _ []) with
      [(key "bat", 2%Z); (key "cats", 3%Z); (key "cat", 1%Z)].
    rewrite !elem_of_cons, !elem_of_nil. tauto.
Defined.

(** C3, as the specification states it, fails: a pattern is read up to its
    first NUL, so the two-character pattern ['a'; NUL] reports the
    one-character key "a". *)
Lemma C3_counterexample :
  ¬ (∀ (m : tst_map ascii Z) (p : tstring ascii) (out : Seq ascii Z) k v,
       valid m → p ≠ [] →
       ((k, v) ∈ pmsearch m p out ↔ contains m k v ∧ pm_match p k)).
Proof.
  intros H.
  destruct (H (build [(key "a", 1%Z)]) ["a"%char; nul] [] (key "a") 1%Z)
    as [H1 _]; [valid_build|done|].
  destruct H1 as [_ [_ Hm]]; [|done].
  vm_compute. by left.
Qed.

(** C3, amended.  For every pattern without a NUL character, [pmsearch]
    reports exactly the pairs of the container whose key has the length of
    the pattern and agrees with it wherever the pattern has no ['.'], each
    once; and in any container holding exactly ("cat",1), ("car",2),
    ("cot",3), [pmsearch("c.t", out)] is ("cat",1) and ("cot",3). *)
Theorem C3_pmsearch_exact :
  (∀ (Ch : Type) (CT : CharT Ch) (CO : CompOrder Ch) (T : Type)
     (m : tst_map Ch T) (p : tstring Ch) (out : Seq Ch T),
     valid m → proper p →
     (∀ k v, (k, v) ∈ pmsearch m p out
             ↔ contains m k v ∧ length k = length p ∧ pm_match p k)
     ∧ NoDup (pmsearch m p out).*1)
  ∧ (∀ (m : tst_map ascii Z) (out : Seq ascii Z),
       valid m →
       (∀ k v, contains m k v
               ↔ (k, v) ∈ [(key "cat", 1%Z); (key "car", 2%Z); (key "cot", 3%Z)]) →
       pmsearch m (key "c.t") out ≡ₚ [(key "cat", 1%Z); (key "cot", 3%Z)]).
Proof.
  assert (∀ (Ch : Type) (CT : CharT Ch) (CO : CompOrder Ch) (T : Type)
     (m : tst_map Ch T) (p : tstring Ch) (out : Seq Ch T),
     valid m → proper p →
     (∀ k v, (k, v) ∈ pmsearch m p out
             ↔ contains m k v ∧ length k = length p ∧ pm_match p k)
     ∧ NoDup (pmsearch m p out).*1) as Hgen.
  { intros Ch CT CO T m p out ([Hn Hb]&_) Hp.
    rewrite pmsearch_reading, c_str_id by done. split.
    - intros k v. rewrite contains_stored, elem_of_pm_list by done.
      split; [|tauto]. intros [? Hm]. split_and!; try done.
      by apply pm_match_length.
    - by apply NoDup_pm_list. }
  split; [exact Hgen|].
  intros m out Hv Hm.
  destruct (Hgen ascii _ _ Z m (key "c.t") out Hv) as [Hin Hnd].
  { proper_key. }
  apply NoDup_Permutation.
  - by apply NoDup_fmap_1 in Hnd.
  - apply NoDup_cons. split; [|apply NoDup_singleton].
    by intros [=]%list_elem_of_singleton.
  - intros [k v]. rewrite Hin, Hm, !elem_of_cons, !elem_of_nil. split.
    + intros [[[= -> ->]|[[= -> ->]|[[= -> ->]|[]]]] [_ Hpm]]; auto.
      vm_compute in Hpm. naive_solver.
    + intros [[= -> ->]|[[= -> ->]|[]]]; (split; [auto|]); vm_compute;
        split_and!; auto.
Qed.

Lemma C3_pmsearch_exact_witness :
  let m := build [(key "cat", 1%Z); (key "car", 2%Z); (key "cot", 3%Z)] in
  (∀ k v, (k, v) ∈ pmsearch m (key "c.t") []
          ↔ contains m k v ∧ length k = length (key "c.t")
            ∧ pm_match (key "c.t") k)
  ∧ NoDup (pmsearch m (key "c.t") []).*1.
Proof.
  apply (proj1 C3_pmsearch_exact ascii _ _ Z).
  - valid_build.
  - proper_key.
Defined.

(** C4, as the specification states it, fails: a key that begins with NUL
    is not empty, yet [__insert] sees an empty C string and stores
    nothing. *)
Lemma C4_counterexample :
  ¬ (∀ (m : tst_map ascii Z) (k : tstring ascii) (v : Z),
       valid m → k ≠ [] → find (insert m k v).1 k = Some v).
Proof.
  intros H. specialize (H tst_empty [nul] 7%Z valid_empty).
  vm_compute in H. by specialize (H ltac:(done)).
Qed.

(** C4, amended.  For every container state, every key whose C string is
    not empty (the key does not begin with NUL) and every value [v]: right
    after [insert(k, v)], [find(k)] is a handle to [v]. *)
Theorem C4_find_after_insert (Ch : Type) (CT : CharT Ch) (CO : CompOrder Ch)
    (T : Type) (m : tst_map Ch T) (k : tstring Ch) (v : T) :
  c_str k ≠ [] → find (insert m k v).1 k = Some v.
Proof. apply find_insert. Qed.

Lemma C4_find_after_insert_witness :
  find (insert (build [(key "car", 2%Z)]) (key "cat") 1%Z).1 (key "cat")
  = Some 1%Z.
Proof. apply (C4_find_after_insert ascii _ _ Z). by vm_compute. Defined.

(** C5.  For every container state and every key [k].  If [find(k)] is
    present: [remove(k)] returns true, then [find(k)] is absent and [size]
    is one less, and a following [insert(k, v2)] makes [find(k)] return
    [v2] and [size] one more.  If [find(k)] is absent: [remove(k)] returns
    false, and [size] and the result of [find] for every key are as
    before. *)
Theorem C5_remove (Ch : Type) (CT : CharT Ch) (CO : CompOrder Ch) (T : Type)
    (m : tst_map Ch T) (k : tstring Ch) :
  valid m →
  (is_Some (find m k) →
     (remove m k).2 = true
     ∧ find (remove m k).1 k = None
     ∧ size (remove m k).1 = (size m - 1)%Z
     ∧ ∀ v2, find (insert (remove m k).1 k v2).1 k = Some v2
             ∧ size (insert (remove m k).1 k v2).1
               = (size (remove m k).1 + 1)%Z)
  ∧ (find m k = None →
     (remove m k).2 = false
     ∧ size (remove m k).1 = size m
     ∧ ∀ k', find (remove m k).1 k' = find m k').
Proof.
  intros ([Hn Hb]&Hsz&Hmax). pose proof (remove_spec m k Hn) as Hr. split.
  - intros [w Hw]. rewrite Hw in Hr.
    destruct Hr as (p'&->&Hnone&Hp&Hn'&Hb'&Hfr).
    assert (c_str k ≠ []) as Hk.
    { intros Hk. by rewrite (find_nul_start m k Hn Hk) in Hw. }
    pose proof (find_payloads _ _ _ Hw) as Hone.
    assert (size_decr (size_ m) = (size_ m - 1)%Z) as Hdec.
    { apply size_decr_exact. lia. }
    unfold size. simpl. split_and!; [done|done|done|].
    intros v2. split; [by apply find_insert|].
    pose proof (size_insert (TstMap p' (size_decr (size_ m))) k v2 Hk) as Hs.
    unfold size, find in Hs. simpl in Hs. rewrite Hs, Hnone, Hdec.
    apply size_incr_exact. lia.
  - intros Hw. rewrite Hw in Hr. by rewrite Hr.
Qed.

Lemma C5_remove_witness :
  let m := build [(key "cat", 1%Z); (key "car", 2%Z)] in
  (is_Some (find m (key "cat")) →
     (remove m (key "cat")).2 = true
     ∧ find (remove m (key "cat")).1 (key "cat") = None
     ∧ size (remove m (key "cat")).1 = (size m - 1)%Z
     ∧ ∀ v2, find (insert (remove m (key "cat")).1 (key "cat") v2).1 (key "cat")
             = Some v2
             ∧ size (insert (remove m (key "cat")).1 (key "cat") v2).1
               = (size (remove m (key "cat")).1 + 1)%Z)
  ∧ (find m (key "cat") = None →
     (remove m (key "cat")).2 = false
     ∧ size (remove m (key "cat")).1 = size m
     ∧ ∀ k', find (remove m (key "cat")).1 k' = find m k').
Proof. apply (C5_remove ascii _ _ Z). valid_build. Defined.

(** C6.  For every container state and every two distinct keys [k], [k2]
    of the container: after [remove(k)], [find(k2)] is still present with
    the value it had.  In particular, after inserting "cat" and "car" and
    removing "cat", "car" is found with its value. *)
Theorem C6_remove_keeps_other_keys :
  (∀ (Ch : Type) (CT : CharT Ch) (CO : CompOrder Ch) (T : Type)
     (m : tst_map Ch T) (k k2 : tstring Ch) (v v2 : T),
     valid m → contains m k v → contains m k2 v2 → k ≠ k2 →
     find m k2 = Some v2
     ∧ find (remove m k).1 k2 = Some v2
     ∧ contains (remove m k).1 k2 v2)
  ∧ (let m := build [(key "cat", 1%Z); (key "car", 2%Z)] in
     (remove m (key "cat")).2 = true
     ∧ find (remove m (key "cat")).1 (key "car") = Some 2%Z).
Proof.
  split; [|by vm_compute].
  intros Ch CT CO T m k k2 v v2 (Hwf&_) Hk Hk2 Hne.
  pose proof Hwf as [Hn Hb].
  apply contains_find in Hk as [Hpk Hfk]; [|done].
  apply contains_find in Hk2 as [Hpk2 Hfk2]; [|done].
  assert (find (remove m k).1 k2 = Some v2) as Hfind.
  { pose proof (remove_spec m k Hn) as Hr. rewrite Hfk in Hr.
    destruct Hr as (p'&->&_&_&_&_&Hfr). unfold find in *. simpl.
    rewrite Hfr; [done|]. unfold proper in *. by rewrite !c_str_id. }
  split_and!; [done|done|].
  apply contains_find; [by apply remove_wf|done].
Qed.

Lemma C6_remove_keeps_other_keys_witness :
  let m := build [(key "cat", 1%Z); (key "cats", 3%Z)] in
  find m (key "cats") = Some 3%Z
  ∧ find (remove m (key "cat")).1 (key "cats") = Some 3%Z
  ∧ contains (remove m (key "cat")).1 (key "cats") 3%Z.
Proof.
  apply (proj1 C6_remove_keeps_other_keys ascii _ _ Z _ (key "cat") (key "cats")
           1%Z 3%Z).
  - valid_build.
  - unfold contains. vm_compute. set_solver.
  - unfold contains. vm_compute. set_solver.
  - by vm_compute.
Defined.

(** C7, as the specification states it, fails: for a key that begins with
    NUL both inserts store nothing, and [find] does not return the second
    value. *)
Lemma C7_counterexample :
  ¬ (∀ (m : tst_map ascii Z) (k : tstring ascii) (v1 v2 : Z),
       valid m → k ≠ [] →
       size (insert (insert m k v1).1 k v2).1 = size (insert m k v1).1
       ∧ find (insert (insert m k v1).1 k v2).1 k = Some v2).
Proof.
  intros H.
  destruct (H tst_empty [nul] 1%Z 2%Z valid_empty) as [_ Hf]; [done|].
  by vm_compute in Hf.
Qed.

(** C7, amended.  For every container state, every key whose C string is
    not empty and all values [v1], [v2]: after [insert(k, v1)], a second
    [insert(k, v2)] leaves [size] as it is and makes [find(k)] return
    [v2]; it allocates no node (the tree is the same up to the payload
    values), and only the payload of [k] changes: [find] returns what it
    returned for every key that reads differently as a C string. *)
Theorem C7_insert_twice (Ch : Type) (CT : CharT Ch) (CO : CompOrder Ch)
    (T : Type) (m : tst_map Ch T) (k : tstring Ch) (v1 v2 : T) :
  c_str k ≠ [] →
  let m1 := (insert m k v1).1 in
  let m2 := (insert m1 k v2).1 in
  size m2 = size m1
  ∧ find m2 k = Some v2
  ∧ shape (root_ m2) = shape (root_ m1)
  ∧ node_count (root_ m2) = node_count (root_ m1)
  ∧ ∀ k', c_str k' ≠ c_str k → find m2 k' = find m1 k'.
Proof.
  intros Hk m1 m2.
  assert (find m1 k = Some v1) as Hf1 by by apply find_insert.
  assert (shape (root_ m2) = shape (root_ m1)) as Hsh.
  { unfold m2. rewrite insert_unfold. simpl.
    apply insert_present_shape; [|done]. unfold find in Hf1. by rewrite Hf1. }
  split_and!.
  - unfold m2. by rewrite size_insert, Hf1.
  - by apply find_insert.
  - done.
  - by rewrite <- (node_count_shape (root_ m2)), Hsh, node_count_shape.
  - intros k' Hk'. by apply find_insert_other.
Qed.

Lemma C7_insert_twice_witness :
  let m1 := (insert (build [(key "car", 2%Z)]) (key "cat") 1%Z).1 in
  let m2 := (insert m1 (key "cat") 5%Z).1 in
  size m2 = size m1
  ∧ find m2 (key "cat") = Some 5%Z
  ∧ shape (root_ m2) = shape (root_ m1)
  ∧ node_count (root_ m2) = node_count (root_ m1)
  ∧ ∀ k', c_str k' ≠ c_str (key "cat") → find m2 k' = find m1 k'.
Proof. apply (C7_insert_twice ascii _ _ Z). by vm_compute. Defined.

(** C8.  For every container state and every value [v]: [insert("", v)]
    leaves [size] (indeed the whole container) as it is and returns the
    null handle, and [find("")] is absent, before and after. *)
Theorem C8_empty_key (Ch : Type) (CT : CharT Ch) (CO : CompOrder Ch)
    (T : Type) (m : tst_map Ch T) (v : T) :
  valid m →
  size (insert m [] v).1 = size m
  ∧ (insert m [] v).2 = None
  ∧ (insert m [] v).1 = m
  ∧ find m [] = None
  ∧ find (insert m [] v).1 [] = None.
Proof.
  intros ([Hn Hb]&_). rewrite insert_empty_key by done. simpl.
  split_and!; try done; by apply find_nul_start.
Qed.

Lemma C8_empty_key_witness :
  let m := build [(key "cat", 1%Z)] in
  size (insert m [] 9%Z).1 = size m
  ∧ (insert m [] 9%Z).2 = None
  ∧ (insert m [] 9%Z).1 = m
  ∧ find m [] = None
  ∧ find (insert m [] 9%Z).1 [] = None.
Proof. apply (C8_empty_key ascii _ _ Z). valid_build. Defined.

(** C9.  Two containers in one memory.  Copy-constructing [B] from any
    container [A] succeeds; [find] on [B] returns what [find] on [A]
    returns for every key (so every key of [A] is in [B] with an equal
    value), and the sizes are equal.  After any run of [insert] and
    [remove] on [B], the size of [A] and the result of [find] on [A] for
    every key are what they were. *)
Theorem C9_copy_independent (Ch : Type) (CT : CharT Ch) (CO : CompOrder Ch)
    (T : Type) (h : mem Ch T) (a : nat) (A : tst_map Ch T) (FA : gset nat) :
  models h a A FA → valid A →
  ∃ b h1,
    copy_construct a h = Some (b, h1)
    ∧ b ≠ a
    ∧ obj_size a h = Some (size A)
    ∧ obj_size b h1 = Some (size A)
    ∧ (∀ k, obj_find a k h = Some (find A k)
            ∧ obj_find b k h1 = Some (find A k))
    ∧ ∀ ops : list (mutation Ch T),
        ∃ h2, mutate_all b ops h1 = Some h2
              ∧ obj_size a h2 = Some (size A)
              ∧ ∀ k, obj_find a k h2 = Some (find A k).
Proof.
  intros HA Hv.
  destruct (copy_construct_models h a A FA HA) as (h1&FB&Hrun&Hab&HA1&HB1&Hd).
  destruct (tst_copy_valid A Hv) as [_ Hsize].
  exists (length (objects h)), h1. split_and!.
  - done.
  - done.
  - by eapply obj_size_models.
  - rewrite (obj_size_models _ _ _ _ HB1). by rewrite Hsize.
  - intros k. split; [by eapply obj_find_models|].
    rewrite (obj_find_models _ _ _ _ k HB1). f_equal.
    apply find_tst_copy. by destruct Hv.
  - intros ops.
    destruct (mutate_all_frame (length (objects h)) ops h1 a A (tst_copy A)
                FA FB Hab HA1 HB1 Hd) as (h2&B2&FB2&Hmut&HA2&_).
    exists h2. split_and!; [done|by eapply obj_size_models|].
    intros k. by eapply obj_find_models.
Qed.

Lemma C9_copy_independent_witness :
  let h := Mem [Cell "a"%char None None None (Some 1%Z)] [Object (Some 0) 1] in
  let A := TstMap (Node "a"%char Null Null Null (Some 1%Z)) 1 in
  ∃ b h1,
    copy_construct 0 h = Some (b, h1)
    ∧ b ≠ 0
    ∧ obj_size 0 h = Some (size A)
    ∧ obj_size b h1 = Some (size A)
    ∧ (∀ k, obj_find 0 k h = Some (find A k)
            ∧ obj_find b k h1 = Some (find A k))
    ∧ ∀ ops : list (mutation ascii Z),
        ∃ h2, mutate_all b ops h1 = Some h2
              ∧ obj_size 0 h2 = Some (size A)
              ∧ ∀ k, obj_find 0 k h2 = Some (find A k).
Proof.
  apply (C9_copy_independent ascii _ _ Z _ 0 _ ({[0]} ∪ ∅ ∪ ∅ ∪ ∅)).
  - exists (Some 0). split; [reflexivity|].
    apply (tree_at_node _ 0 "a"%char None None None (Some 1%Z));
      [reflexivity|constructor..|set_solver|set_solver|set_solver|set_solver].
  - change (valid (build [(key "a", 1%Z)])). valid_build.
Defined.

(** C10.  Whatever the output container held, [sequence], [pmsearch] and
    [nearsearch] clear it first: after the call it holds what the
    traversal of this call appended, nothing else. *)
Theorem C10_output_cleared (Ch : Type) (CT : CharT Ch) (T : Type)
    (m : tst_map Ch T) (pat : tstring Ch) (d : Z) (out : Seq Ch T) :
  sequence m out = pairs (root_ m)
  ∧ pmsearch m pat out = pm_list (root_ m) (c_str pat)
  ∧ nearsearch m pat d out = near_list (root_ m) (c_str pat) d
  ∧ sequence m out = sequence m []
  ∧ pmsearch m pat out = pmsearch m pat []
  ∧ nearsearch m pat d out = nearsearch m pat d [].
Proof.
  rewrite !sequence_pairs, !pmsearch_reading, !nearsearch_reading. done.
Qed.

(** ** Further properties of the interface *)

Section more_theory.
Context {Ch : Type} `{!CharT Ch} `{!CompOrder Ch} {T : Type}.
Implicit Types (m : tst_map Ch T) (p lo hi eq : tnode Ch T) (k s : list Ch).
Implicit Types (v : T) (sz : Z).

Lemma size_decr_mod n : size_decr (n mod 2 ^ 64) = ((n - 1) mod 2 ^ 64)%Z.
Proof. unfold size_decr. by rewrite Zminus_mod_idemp_l. Qed.

(** The counter follows the number of payloads modulo [2^64], through
    every insert and remove. *)
Lemma insert_counts m k v :
  size_ m = (Z.of_nat (payloads (root_ m)) mod 2 ^ 64)%Z →
  size_ (insert m k v).1
  = (Z.of_nat (payloads (root_ (insert m k v).1)) mod 2 ^ 64)%Z.
Proof.
  intros Hsz. destruct (decide (c_str k = [])) as [Hk|Hk].
  { by rewrite insert_empty_key. }
  rewrite payloads_insert by done.
  pose proof (size_insert m k v Hk) as Hs. unfold size in Hs. rewrite Hs.
  destruct (find m k); [by rewrite Nat.add_0_r|].
  rewrite Hsz, size_incr_mod. f_equal. lia.
Qed.

Lemma remove_counts m k :
  no_nul (root_ m) →
  size_ m = (Z.of_nat (payloads (root_ m)) mod 2 ^ 64)%Z →
  size_ (remove m k).1
  = (Z.of_nat (payloads (root_ (remove m k).1)) mod 2 ^ 64)%Z.
Proof.
  intros Hn Hsz. pose proof (remove_spec m k Hn) as Hr.
  destruct (find m k).
  - destruct Hr as (p'&->&_&Hp&_). simpl.
    rewrite Hsz, size_decr_mod, Hp. f_equal. lia.
  - by rewrite Hr.
Qed.

Lemma reachable_counts m :
  reachable m → size_ m = (Z.of_nat (payloads (root_ m)) mod 2 ^ 64)%Z.
Proof.
  induction 1 as [|m k v Hm IH|m k Hm IH]; [done|by apply insert_counts|].
  apply remove_counts; [|done]. by apply reachable_wf.
Qed.

Lemma remove_loop_node_count p s sz :
  node_count (remove_loop p s sz).1.1 = node_count p.
Proof.
  revert s. induction p as [|c lo IHlo hi IHhi eq IHeq d]; intros s; [done|].
  simpl. destruct (comp (deref s) c).
  - specialize (IHlo s). destruct (remove_loop lo s sz) as [[??]?].
    simpl in *. lia.
  - destruct (equiv_ch (deref s) c).
    + specialize (IHeq (tail s)).
      destruct (tail s), d; try done;
        destruct (remove_loop eq _ sz) as [[??]?]; simpl in *; lia.
    + specialize (IHhi s). destruct (remove_loop hi s sz) as [[??]?].
      simpl in *. lia.
Qed.

Lemma insert_null_node_count s v sz :
  node_count (__insert_null s v sz).1.1 = length s.
Proof.
  induction s as [|x [|y s2] IH]; [done|done|].
  rewrite insert_null_step.
  destruct (__insert_null (y :: s2) v sz) as [[??]?]. simpl in *. lia.
Qed.

Lemma insert_node_count p s v sz :
  node_count p ≤ node_count (__insert p s v sz).1.1
  ∧ node_count (__insert p s v sz).1.1 ≤ node_count p + length s.
Proof.
  revert s. induction p as [|c lo IHlo hi IHhi eq IHeq d]; intros s.
  { simpl. rewrite insert_null_node_count. lia. }
  destruct s as [|x s1]; [simpl; lia|]. simpl.
  destruct (comp x c).
  - specialize (IHlo (x :: s1)).
    destruct (__insert lo (x :: s1) v sz) as [[??]?]. simpl in *. lia.
  - destruct (equiv_ch x c).
    + destruct s1 as [|y s2]; [destruct d; simpl; lia|].
      specialize (IHeq (y :: s2)).
      destruct (__insert eq (y :: s2) v sz) as [[??]?]. simpl in *. lia.
    + specialize (IHhi (x :: s1)).
      destruct (__insert hi (x :: s1) v sz) as [[??]?]. simpl in *. lia.
Qed.

Lemma near_cost_zero k s : (near_cost k s ≤ 0)%Z ↔ k = s.
Proof.
  revert s. induction k as [|c k1 IH]; intros [|x s1]; simpl.
  - done.
  - split; [lia|done].
  - split; [lia|done].
  - pose proof (near_cost_nonneg k1 s1). case_decide as Hc.
    + subst x. rewrite Z.add_0_l, IH. split; [by intros ->|by intros [= ->]].
    + split; [lia|]. intros [= -> ->]. done.
Qed.

Lemma near_list_negative p s d : (d < 0)%Z → near_list p s d = [].
Proof.
  intros Hd. destruct p; [done|]. simpl.
  by destruct (Z.ltb_spec d 0); [|lia].
Qed.

End more_theory.

(** X1.  [sequence] lists exactly the pairs [find] finds: a pair is listed
    iff its key has no embedded NUL and [find] returns its value, and no
    key is listed twice. *)
Theorem X1_sequence_lists_what_find_finds (Ch : Type) (CT : CharT Ch)
    (CO : CompOrder Ch) (T : Type) (m : tst_map Ch T) (out : Seq Ch T) :
  valid m →
  (∀ k v, (k, v) ∈ sequence m out ↔ proper k ∧ find m k = Some v)
  ∧ NoDup (sequence m out).*1.
Proof.
  intros [Hwf _]. split.
  - intros k v. by apply sequence_complete.
  - by apply sequence_NoDup.
Qed.

Lemma X1_sequence_lists_what_find_finds_witness :
  let m := build [(key "b", 1%Z); (key "a", 2%Z); (key "ab", 3%Z)] in
  (∀ k v, (k, v) ∈ sequence m [] ↔ proper k ∧ find m k = Some v)
  ∧ NoDup (sequence m []).*1.
Proof.
  apply (X1_sequence_lists_what_find_finds ascii _ _ Z). valid_build.
Defined.

(** X2.  [foreach] calls the visitor on the pairs that [sequence] lists,
    in that order, whatever the visitor does with its state. *)
Theorem X2_foreach_folds_sequence (Ch T S : Type) (m : tst_map Ch T)
    (f : tstring Ch → T → S → S) (st : S) (out : Seq Ch T) :
  foreach m f st = foldl (λ st kv, f kv.1 kv.2 st) st (sequence m out).
Proof. by rewrite sequence_pairs, (foreach_fold (S:=S)). Qed.

(** X3.  [size()] is the number of pairs [sequence] lists, and [empty()]
    says whether there is none. *)
Theorem X3_size_counts_pairs (Ch : Type) (CT : CharT Ch) (CO : CompOrder Ch)
    (T : Type) (m : tst_map Ch T) (out : Seq Ch T) :
  valid m →
  size m = Z.of_nat (length (sequence m out))
  ∧ (empty_map m = true ↔ sequence m out = []).
Proof.
  intros (_&Hsz&_). rewrite sequence_pairs.
  assert (size m = Z.of_nat (length (pairs (root_ m)))) as Hlen.
  { unfold size. by rewrite Hsz, length_pairs. }
  split; [done|]. unfold empty_map. unfold size in Hlen.
  rewrite Z.eqb_eq, Hlen. destruct (pairs (root_ m)); simpl; split; done.
Qed.

Lemma X3_size_counts_pairs_witness :
  let m := (remove (build [(key "cat", 1%Z); (key "car", 2%Z)]) (key "cat")).1 in
  size m = Z.of_nat (length (sequence m []))
  ∧ (empty_map m = true ↔ sequence m [] = []).
Proof.
  apply (X3_size_counts_pairs ascii _ _ Z). apply valid_remove. valid_build.
Defined.

(** X4.  [nearsearch(pat, d, out)] reports exactly the pairs of the
    container whose key is within cost [d] of the pattern, where each
    substituted character and each character by which key and pattern
    differ in length costs one. *)
Theorem X4_nearsearch_exact (Ch : Type) (CT : CharT Ch) (CO : CompOrder Ch)
    (T : Type) (m : tst_map Ch T) (pat : tstring Ch) (d : Z) (out : Seq Ch T) :
  valid m →
  ∀ k v, (k, v) ∈ nearsearch m pat d out
         ↔ contains m k v ∧ (near_cost k (c_str pat) ≤ d)%Z.
Proof.
  intros ([Hn Hb]&_) k v.
  rewrite nearsearch_reading, contains_stored. by apply elem_of_near_list.
Qed.

Lemma X4_nearsearch_exact_witness :
  let m := build [(key "cat", 1%Z); (key "dog", 2%Z); (key "ca", 3%Z)] in
  (key "ca", 3%Z) ∈ nearsearch m (key "cot") 2 []
  ↔ contains m (key "ca") 3%Z
    ∧ (near_cost (key "ca") (c_str (key "cot")) ≤ 2)%Z.
Proof. apply (X4_nearsearch_exact ascii _ _ Z). valid_build. Defined.

(** X5.  With budget 0 [nearsearch] is an exact lookup: it reports the
    pattern's own pair if [find] has it and nothing else; with a negative
    budget it reports nothing. *)
Theorem X5_nearsearch_small_budget (Ch : Type) (CT : CharT Ch)
    (CO : CompOrder Ch) (T : Type) (m : tst_map Ch T) (pat : tstring Ch)
    (out : Seq Ch T) :
  valid m →
  (∀ k v, (k, v) ∈ nearsearch m pat 0 out
          ↔ k = c_str pat ∧ find m pat = Some v)
  ∧ (∀ d, (d < 0)%Z → nearsearch m pat d out = []).
Proof.
  intros Hv. pose proof Hv as ([Hn Hb]&_). split.
  - intros k v. rewrite nearsearch_reading, elem_of_near_list by done.
    rewrite near_cost_zero. split.
    + intros [Hs ->]. split; [done|]. by apply stored_find.
    + intros [-> Hf]. split; [|done]. apply find_stored; [|done].
      intros Hk. unfold find in Hf. by rewrite Hk, find_nil in Hf.
  - intros d Hd. rewrite nearsearch_reading. by apply near_list_negative.
Qed.

Lemma X5_nearsearch_small_budget_witness :
  let m := build [(key "cat", 1%Z); (key "bat", 2%Z)] in
  (∀ k v, (k, v) ∈ nearsearch m (key "cat") 0 []
          ↔ k = c_str (key "cat") ∧ find m (key "cat") = Some v)
  ∧ (∀ d, (d < 0)%Z → nearsearch m (key "cat") d [] = []).
Proof. apply (X5_nearsearch_small_budget ascii _ _ Z). valid_build. Defined.

Section pmsearch_order.
Context {Ch : Type} `{!CharT Ch} `{!CompOrder Ch} {T : Type}.
Implicit Types (p lo hi eq : tnode Ch T) (k s : list Ch) (v : T).

Lemma ascending_app (l1 l2 : list (list Ch)) :
  ascending l1 → ascending l2 →
  (∀ a b, a ∈ l1 → b ∈ l2 → lex_less a b = true) →
  ascending (l1 ++ l2).
Proof.
  induction l1 as [|a l1 IH]; intros H1 H2 Hx; [done|].
  simpl in *. destruct H1 as [Ha H1]. split.
  - apply Forall_app. split; [done|].
    apply Forall_forall. intros b Hb. apply Hx; [by left|done].
  - apply IH; [done..|]. intros a' b Ha' Hb. apply Hx; [by right|done].
Qed.

Lemma lex_less_cons_same (c : Ch) (a b : list Ch) :
  lex_less (c :: a) (c :: b) = lex_less a b.
Proof. simpl. by rewrite comp_irrefl, equiv_ch_refl. Qed.

Lemma ascending_cons_all (c : Ch) (l : list (list Ch)) :
  ascending l → ascending ((c ::.) <$> l).
Proof.
  induction l as [|a l IH]; [done|]. simpl. intros [Ha Hl]. split; [|auto].
  apply Forall_fmap. eapply Forall_impl; [exact Ha|].
  intros b Hb. simpl. by rewrite comp_irrefl, equiv_ch_refl.
Qed.

Lemma under_keys (c : Ch) (l : list (list Ch * T)) :
  (under c <$> l).*1 = (c ::.) <$> l.*1.
Proof. rewrite <- !list_fmap_compose. by apply list_fmap_ext. Qed.

(** The matches come out in ascending key order: at a node, the matches
    below [lokid] precede those through the node, which precede those
    below [hikid]. *)
Lemma ascending_pm_list p s : bst p → ascending (pm_list p s).*1.
Proof.
  revert s. induction p as [|c lo IHlo hi IHhi eq IHeq d]; intros s Hb.
  { by destruct s. }
  destruct s as [|x s1]; [done|].
  pose proof Hb as (_&_&Hlo&Hhi&Heq).
  change (pm_list (Node c lo hi eq d) (x :: s1)) with
    ((if bool_decide (x = dot) || comp x c then pm_list lo (x :: s1) else [])
     ++ (if bool_decide (x = dot) || equiv_ch x c then
           match s1 with
           | [] => self_pair c d
           | _ :: _ => under c <$> pm_list eq s1
           end
         else [])
     ++ (if bool_decide (x = dot) || comp c x then pm_list hi (x :: s1) else [])).
  set (l1 := if bool_decide (x = dot) || comp x c then _ else _).
  set (l3 := if bool_decide (x = dot) || comp c x then _ else _).
  set (l2 := if bool_decide (x = dot) || equiv_ch x c then _ else _).
  assert (∀ k, k ∈ l1.*1 → ∃ (x0 : Ch) k1, k = x0 :: k1 ∧ comp x0 c = true) as H1.
  { intros k (v&Hin)%elem_of_keys. revert Hin. unfold l1.
    destruct (bool_decide (x = dot) || comp x c); [|by intros ?%elem_of_nil].
    rewrite elem_of_pm_list by done. intros [Hs _].
    by eapply level_chars_bound_lo. }
  assert (∀ k, k ∈ l3.*1 → ∃ (x0 : Ch) k1, k = x0 :: k1 ∧ comp c x0 = true) as H3.
  { intros k (v&Hin)%elem_of_keys. revert Hin. unfold l3.
    destruct (bool_decide (x = dot) || comp c x); [|by intros ?%elem_of_nil].
    rewrite elem_of_pm_list by done. intros [Hs _].
    by eapply level_chars_bound_hi. }
  assert (∀ k, k ∈ l2.*1 → ∃ k1, k = c :: k1) as H2.
  { intros k (v&Hin)%elem_of_keys. revert Hin. unfold l2.
    destruct (bool_decide (x = dot) || equiv_ch x c); [|by intros ?%elem_of_nil].
    destruct s1.
    - intros [-> _]%elem_of_self_pair. by exists [].
    - intros (k1&->&_)%elem_of_under. by exists k1. }
  assert (ascending l1.*1) as A1.
  { unfold l1. destruct (bool_decide (x = dot) || comp x c); [by apply IHlo|done]. }
  assert (ascending l3.*1) as A3.
  { unfold l3. destruct (bool_decide (x = dot) || comp c x); [by apply IHhi|done]. }
  assert (ascending l2.*1) as A2.
  { unfold l2. destruct (bool_decide (x = dot) || equiv_ch x c); [|done].
    destruct s1.
    - by destruct d.
    - rewrite under_keys. apply ascending_cons_all. by apply IHeq. }
  rewrite !fmap_app. apply ascending_app; [done| |].
  - apply ascending_app; [done..|].
    intros a b (k1&->)%H2 (k0&k2&->&Hk0)%H3. simpl. by rewrite Hk0.
  - intros a b (k0&k1&->&Hk0)%H1. rewrite elem_of_app.
    intros [(k2&->)%H2|(k3&k4&->&Hk3)%H3]; simpl.
    + by rewrite Hk0.
    + by rewrite (comp_trans _ _ _ Hk0 Hk3).
Qed.

Lemma pm_match_literal (pat k : list Ch) :
  dot ∉ pat → pm_match pat k ↔ k = pat.
Proof.
  revert k. induction pat as [|x pat IH]; intros [|c k] Hd; simpl; try done.
  apply not_elem_of_cons in Hd as [Hx Hd]. rewrite IH by done. split.
  - intros [[?| ->] ->]; done.
  - intros [= -> ->]. auto.
Qed.

Lemma singleton_list {A B} (l : list (A * B)) (a : A * B) :
  NoDup l.*1 → (∀ x, x ∈ l ↔ x = a) → l = [a].
Proof.
  intros Hnd Hl. destruct l as [|x l].
  { pose proof (proj2 (Hl a) eq_refl) as Ha. by apply elem_of_nil in Ha. }
  assert (x = a) as -> by (apply Hl; by left).
  destruct l as [|y l]; [done|].
  assert (y = a) as -> by (apply Hl; right; by left).
  simpl in Hnd. apply NoDup_cons in Hnd as [Hnd _]. destruct Hnd. by left.
Qed.

End pmsearch_order.

(** X6.  [pmsearch] reports its matches in ascending key order. *)
Theorem X6_pmsearch_ascending (Ch : Type) (CT : CharT Ch) (CO : CompOrder Ch)
    (T : Type) (m : tst_map Ch T) (pat : tstring Ch) (out : Seq Ch T) :
  valid m → ascending (pmsearch m pat out).*1.
Proof.
  intros ([_ Hb]&_). rewrite pmsearch_reading. by apply ascending_pm_list.
Qed.

Lemma X6_pmsearch_ascending_witness :
  ascending
    (pmsearch (build [(key "cot", 1%Z); (key "cat", 2%Z); (key "cut", 3%Z)])
       (key "c.t") []).*1.
Proof. apply (X6_pmsearch_ascending ascii _ _ Z). valid_build. Defined.

(** X7.  A pattern without wildcard and without NUL is an exact lookup:
    [pmsearch] yields the pattern's own pair if [find] has it, and
    otherwise nothing. *)
Theorem X7_pmsearch_literal (Ch : Type) (CT : CharT Ch) (CO : CompOrder Ch)
    (T : Type) (m : tst_map Ch T) (pat : tstring Ch) (out : Seq Ch T) :
  valid m → proper pat → dot ∉ pat →
  pmsearch m pat out
  = match find m pat with Some v => [(pat, v)] | None => [] end.
Proof.
  intros ([Hn Hb]&_) Hp Hd.
  assert (∀ k v, (k, v) ∈ pmsearch m pat out ↔ k = pat ∧ find m pat = Some v)
    as Hin.
  { intros k v. rewrite pmsearch_reading, c_str_id by done.
    rewrite elem_of_pm_list, pm_match_literal by done.
    unfold find. rewrite c_str_id by done. split.
    - intros [Hs ->]. split; [done|]. by apply stored_find.
    - intros [-> Hf]. split; [|done]. apply find_stored; [|done].
      intros ->. by rewrite find_nil in Hf. }
  destruct (find m pat) as [v|].
  - apply singleton_list.
    + rewrite pmsearch_reading. by apply NoDup_pm_list.
    + intros [k w]. rewrite Hin. split; [by intros [-> [= ->]]|by intros [= -> ->]].
  - destruct (pmsearch m pat out) as [|[k w] l] eqn:E; [done|].
    destruct (proj1 (Hin k w)) as [_ ?]; [by left|done].
Qed.

Lemma X7_pmsearch_literal_witness :
  let m := build [(key "cat", 1%Z); (key "car", 2%Z)] in
  pmsearch m (key "car") []
  = match find m (key "car") with Some v => [(key "car", v)] | None => [] end.
Proof.
  apply (X7_pmsearch_literal ascii _ _ Z).
  - valid_build.
  - proper_key.
  - refine (bool_decide_unpack _ _); vm_compute; exact I.
Defined.

(** X8.  [insert(k, v)] changes the result of [find] for no key that reads
    differently as a C string. *)
Theorem X8_insert_keeps_other_keys (Ch : Type) (CT : CharT Ch)
    (CO : CompOrder Ch) (T : Type) (m : tst_map Ch T) (k k' : tstring Ch)
    (v : T) :
  c_str k' ≠ c_str k → find (insert m k v).1 k' = find m k'.
Proof. apply find_insert_other. Qed.

Lemma X8_insert_keeps_other_keys_witness :
  let m := build [(key "cat", 1%Z)] in
  find (insert m (key "ca") 5%Z).1 (key "cat") = find m (key "cat").
Proof. apply (X8_insert_keeps_other_keys ascii _ _ Z). by vm_compute. Defined.

(** X9.  [insert] with a non-empty C string returns a handle to the stored
    value; [size] grows by one if the key was absent and stays if it was
    present; the class invariant is kept. *)
Theorem X9_insert_accounting (Ch : Type) (CT : CharT Ch) (CO : CompOrder Ch)
    (T : Type) (m : tst_map Ch T) (k : tstring Ch) (v : T) :
  valid m → (size m < SIZE_MAX)%Z → c_str k ≠ [] →
  (insert m k v).2 = Some v
  ∧ size (insert m k v).1
    = (size m + if find m k is Some _ then 0 else 1)%Z
  ∧ valid (insert m k v).1.
Proof.
  intros Hv Hlt Hk. pose proof Hv as (_&Hsz&_). split_and!.
  - by apply insert_handle.
  - rewrite size_insert by done. destruct (find m k); [lia|].
    apply size_incr_exact. unfold size in *. lia.
  - apply valid_insert; auto.
Qed.

Lemma X9_insert_accounting_witness :
  let m := build [(key "cat", 1%Z)] in
  (insert m (key "cats") 4%Z).2 = Some 4%Z
  ∧ size (insert m (key "cats") 4%Z).1
    = (size m + if find m (key "cats") is Some _ then 0 else 1)%Z
  ∧ valid (insert m (key "cats") 4%Z).1.
Proof.
  apply (X9_insert_accounting ascii _ _ Z).
  - valid_build.
  - by vm_compute.
  - by vm_compute.
Defined.

(** X10.  In every state reached from the default constructor by inserts
    and removes, the tree is a search tree at every character position, no
    node holds NUL, and [size_] is the number of payloads modulo [2^64]. *)
Theorem X10_reachable_invariant (Ch : Type) (CT : CharT Ch)
    (CO : CompOrder Ch) (T : Type) (m : tst_map Ch T) :
  reachable m →
  no_nul (root_ m) ∧ bst (root_ m)
  ∧ size_ m = (Z.of_nat (payloads (root_ m)) mod 2 ^ 64)%Z.
Proof.
  intros Hm. destruct (reachable_wf m Hm) as [Hn Hb].
  split_and!; [done|done|]. by apply reachable_counts.
Qed.

Lemma X10_reachable_invariant_witness :
  let m := (remove (build [(key "cat", 1%Z); (key "car", 2%Z)]) (key "cat")).1 in
  no_nul (root_ m) ∧ bst (root_ m)
  ∧ size_ m = (Z.of_nat (payloads (root_ m)) mod 2 ^ 64)%Z.
Proof.
  apply (X10_reachable_invariant ascii _ _ Z).
  apply reach_remove, reachable_build.
Defined.

(** X11.  [remove] frees no node and allocates none, whether it finds the
    key or not; [insert] frees none and allocates at most one per
    character of the key. *)
Theorem X11_node_count (Ch : Type) (CT : CharT Ch) (T : Type)
    (m : tst_map Ch T) (k : tstring Ch) (v : T) :
  node_count (root_ (remove m k).1) = node_count (root_ m)
  ∧ node_count (root_ m) ≤ node_count (root_ (insert m k v).1)
  ∧ node_count (root_ (insert m k v).1)
    ≤ node_count (root_ m) + length (c_str k).
Proof.
  unfold remove, insert.
  pose proof (remove_loop_node_count (root_ m) (c_str k) (size_ m)) as Hr.
  pose proof (insert_node_count (root_ m) (c_str k) v (size_ m)) as Hi.
  destruct (remove_loop _ _ _) as [[??]?].
  destruct (__insert _ _ _ _) as [[??]?]. simpl in *. lia.
Qed.

Section interface_theory.
Context {Ch : Type} `{!CharT Ch} `{!CompOrder Ch} {T : Type} (T0 : T).
Implicit Types (m : tst_map Ch T) (p lo hi eq : tnode Ch T) (k s : list Ch).
Implicit Types (v : T) (sz : Z).

Lemma insert_default_nil p sz : __insert_default T0 p [] sz = (p, sz, None).
Proof. by destruct p. Qed.

(** On a key that is there, the [operator[]] variant of [__insert]
    rebuilds every link with the pointer it read and touches no payload. *)
Lemma insert_default_present p s v sz :
  find_loop p s = Some v → s ≠ [] →
  __insert_default T0 p s sz = (p, sz, Some v).
Proof.
  revert s. induction p as [|c lo IHlo hi IHhi eq IHeq d]; intros s Hf Hs.
  { done. }
  destruct s as [|x s1]; [done|]. simpl in *. revert Hf.
  three_way x c; intros Hf.
  - by rewrite (IHlo (x :: s1)).
  - destruct s1 as [|y s2]; [by subst d|]. by rewrite (IHeq (y :: s2)).
  - by rewrite (IHhi (x :: s1)).
Qed.

(** On a key that is not there it is [__insert] with the value [T()]. *)
Lemma insert_default_absent p s sz :
  find_loop p s = None → __insert_default T0 p s sz = __insert p s T0 sz.
Proof.
  revert s. induction p as [|c lo IHlo hi IHhi eq IHeq d]; intros s Hf.
  { done. }
  destruct s as [|x s1]; [done|]. simpl in *. revert Hf.
  three_way x c; intros Hf.
  - by rewrite (IHlo (x :: s1)).
  - destruct s1 as [|y s2]; [by subst d|]. by rewrite (IHeq (y :: s2)).
  - by rewrite (IHhi (x :: s1)).
Qed.

(** [__destroy] nulls the pointer and takes one off the counter for every
    payload. *)
Lemma destroy_counts p n :
  __destroy p (n mod 2 ^ 64)
  = (Null, ((n - Z.of_nat (payloads p)) mod 2 ^ 64)%Z).
Proof.
  revert n. induction p as [|c lo IHlo hi IHhi eq IHeq d]; intros n.
  { simpl. by rewrite Z.sub_0_r. }
  simpl. rewrite IHlo, IHeq, IHhi. f_equal. destruct d.
  - rewrite size_decr_mod. f_equal. lia.
  - f_equal. lia.
Qed.

Lemma clear_reachable m : reachable m → tst_clear m = tst_empty.
Proof.
  intros Hm. unfold tst_clear.
  rewrite (reachable_counts m Hm), destroy_counts, Z.sub_diag. done.
Qed.

Lemma insert_range_snoc m (l : list (tstring Ch * T)) kv :
  insert_range m (l ++ [kv]) = (insert (insert_range m l) kv.1 kv.2).1.
Proof. unfold insert_range. by rewrite foldl_app. Qed.

Lemma last_value_snoc (l : list (tstring Ch * T)) kv s :
  last_value (l ++ [kv]) s
  = if decide (c_str kv.1 = s) then Some kv.2 else last_value l s.
Proof. unfold last_value. by rewrite foldl_app. Qed.

End interface_theory.

(** X12.  [operator[]] on a key that is present returns the stored value
    and leaves the container as it is. *)
Theorem X12_index_present (Ch : Type) (CT : CharT Ch) (CO : CompOrder Ch)
    (T : Type) (T0 : T) (m : tst_map Ch T) (k : tstring Ch) (v : T) :
  valid m → find m k = Some v → index T0 m k = (m, Some v).
Proof.
  intros ([Hn _]&_) Hf. unfold index, find in *.
  rewrite (insert_default_present T0 _ _ v); [by destruct m|done|].
  intros Hk. by rewrite Hk, find_nil in Hf.
Qed.

Lemma X12_index_present_witness :
  let m := build [(key "cat", 1%Z); (key "car", 2%Z)] in
  index 0%Z m (key "car") = (m, Some 2%Z).
Proof.
  apply (X12_index_present ascii _ _ Z); [valid_build|by vm_compute].
Defined.

(** X13.  [operator[]] on a key that is absent is [insert(k, T())]: with a
    non-empty C string it stores [T()], returns it, and [find] then finds
    it; with an empty C string it stores nothing and leaves [pos] null,
    which the function then dereferences. *)
Theorem X13_index_absent (Ch : Type) (CT : CharT Ch) (CO : CompOrder Ch)
    (T : Type) (T0 : T) (m : tst_map Ch T) (k : tstring Ch) :
  find m k = None →
  index T0 m k = insert m k T0
  ∧ (c_str k ≠ [] →
     (index T0 m k).2 = Some T0 ∧ find (index T0 m k).1 k = Some T0)
  ∧ (c_str k = [] → index T0 m k = (m, None)).
Proof.
  intros Hf.
  assert (index T0 m k = insert m k T0) as Hi.
  { unfold index, insert, find in *. by rewrite insert_default_absent. }
  rewrite Hi. split_and!; [done| |].
  - intros Hk. split; [by apply insert_handle|by apply find_insert].
  - apply insert_empty_key.
Qed.

Lemma X13_index_absent_witness :
  let m := build [(key "cat", 1%Z)] in
  index 0%Z m (key "dog") = insert m (key "dog") 0%Z
  ∧ (c_str (key "dog") ≠ [] →
     (index 0%Z m (key "dog")).2 = Some 0%Z
     ∧ find (index 0%Z m (key "dog")).1 (key "dog") = Some 0%Z)
  ∧ (c_str (key "dog") = [] → index 0%Z m (key "dog") = (m, None)).
Proof. apply (X13_index_absent ascii _ _ Z). by vm_compute. Defined.

(** X14.  [clear()] on any reachable state gives the empty container: the
    root is null, [size()] is 0, and [find] finds nothing. *)
Theorem X14_clear_empties (Ch : Type) (CT : CharT Ch) (CO : CompOrder Ch)
    (T : Type) (m : tst_map Ch T) :
  reachable m →
  tst_clear m = tst_empty
  ∧ size (tst_clear m) = 0%Z
  ∧ ∀ k, find (tst_clear m) k = None.
Proof.
  intros Hm. rewrite (clear_reachable m Hm). split_and!; [done|done|].
  intros k. unfold find. simpl. done.
Qed.

Lemma X14_clear_empties_witness :
  let m := build [(key "cat", 1%Z); (key "car", 2%Z)] in
  tst_clear m = tst_empty
  ∧ size (tst_clear m) = 0%Z
  ∧ ∀ k, find (tst_clear m) k = None.
Proof. apply (X14_clear_empties ascii _ _ Z). apply reachable_build. Defined.

(** X15.  Assignment from another container: whatever the target held,
    afterwards [find] returns for every key what it returns on the source,
    and the sizes are equal. *)
Theorem X15_assign_copies (Ch : Type) (CT : CharT Ch) (CO : CompOrder Ch)
    (T : Type) (this m : tst_map Ch T) :
  reachable this → valid m →
  (∀ k, find (assign this m) k = find m k)
  ∧ size (assign this m) = size m
  ∧ valid (assign this m).
Proof.
  intros Hthis Hv. unfold assign. rewrite (clear_reachable this Hthis).
  change (foreach m __insert_helper tst_empty) with (tst_copy m).
  destruct (tst_copy_valid m Hv) as [Hv' Hs]. split_and!; [|done|done].
  intros k. apply find_tst_copy. by destruct Hv.
Qed.

Lemma X15_assign_copies_witness :
  let this := build [(key "dog", 7%Z)] in
  let m := build [(key "cat", 1%Z); (key "car", 2%Z)] in
  (∀ k, find (assign this m) k = find m k)
  ∧ size (assign this m) = size m
  ∧ valid (assign this m).
Proof.
  apply (X15_assign_copies ascii _ _ Z); [apply reachable_build|valid_build].
Defined.

(** X16.  Range insertion: afterwards [find(k)], for a key with non-empty C
    string, returns the value of the last pair of the range whose key reads
    the same, and what it returned before if there is no such pair. *)
Theorem X16_insert_range_last_wins (Ch : Type) (CT : CharT Ch)
    (CO : CompOrder Ch) (T : Type) (m : tst_map Ch T)
    (l : list (tstring Ch * T)) (k : tstring Ch) :
  c_str k ≠ [] →
  find (insert_range m l) k
  = match last_value l (c_str k) with
    | Some v => Some v
    | None => find m k
    end.
Proof.
  intros Hk. induction l as [|[k0 v0] l IH] using rev_ind; [done|].
  rewrite insert_range_snoc, last_value_snoc. simpl. case_decide as Hc.
  - rewrite <- (find_insert (insert_range m l) k0 v0) by congruence.
    unfold find. by rewrite Hc.
  - rewrite find_insert_other by done. exact IH.
Qed.

Lemma X16_insert_range_last_wins_witness :
  let l := [(key "cat", 1%Z); (key "car", 2%Z); (key "cat", 3%Z)] in
  find (insert_range tst_empty l) (key "cat")
  = match last_value l (c_str (key "cat")) with
    | Some v => Some v
    | None => find (tst_empty : tst_map ascii Z) (key "cat")
    end.
Proof. apply (X16_insert_range_last_wins ascii _ _ Z). by vm_compute. Defined.

Lemma uchar_CompOrder : @CompOrder ascii uchar_CharT.
Proof.
  split; unfold comp; simpl; unfold uchar_less.
  - intros a. apply N.ltb_irrefl.
  - intros a b c ?%N.ltb_lt ?%N.ltb_lt. apply N.ltb_lt. lia.
  - intros a b ?%N.ltb_ge ?%N.ltb_ge.
    rewrite <- (ascii_N_embedding a), <- (ascii_N_embedding b). f_equal. lia.
Qed.

Section converting_copy.
Context {Ch : Type} (CT1 CT2 : CharT Ch).
Context (CO1 : @CompOrder Ch CT1) (CO2 : @CompOrder Ch CT2).
Context {U T : Type} (conv : U → T).
Hypothesis same_nul : @nul Ch CT1 = @nul Ch CT2.

Lemma c_str_same (str : tstring Ch) : @c_str Ch CT1 str = @c_str Ch CT2 str.
Proof.
  induction str as [|c r IH]; [done|]. simpl.
  destruct (decide (c = @nul Ch CT1)) as [H1|H1],
    (decide (c = @nul Ch CT2)) as [H2|H2]; try congruence.
Qed.

Lemma tst_copy_from_fold (st : tst_map Ch U) :
  tst_copy_from CT2 conv st
  = foldl (λ mb kv, @__insert_helper Ch CT2 T kv.1 kv.2 mb) tst_empty
      (prod_map id conv <$> pairs (root_ st)).
Proof.
  unfold tst_copy_from. rewrite (foreach_fold (S:=tst_map Ch T)), foldl_fmap.
  done.
Qed.

Lemma find_tst_copy_from (st : tst_map Ch U) (k : tstring Ch) :
  @no_nul Ch CT1 U (root_ st) → @bst Ch CT1 U (root_ st) →
  @find Ch CT2 T (tst_copy_from CT2 conv st) k = conv <$> @find Ch CT1 U st k.
Proof.
  intros Hn Hb. rewrite tst_copy_from_fold.
  set (l := prod_map id conv <$> pairs (root_ st)).
  assert (l.*1 = (pairs (root_ st)).*1) as Hkeys.
  { unfold l. rewrite <- !list_fmap_compose. by apply list_fmap_ext. }
  assert (∀ k0 v0, (k0, v0) ∈ l → @nul Ch CT2 ∉ k0 ∧ k0 ≠ []) as Hl.
  { intros k0 v0 ([k1 u1]&[= -> ->]&Hin)%list_elem_of_fmap. simpl.
    rewrite <- same_nul.
    exact (@pairs_keys Ch CT1 CO1 U (root_ st) k1 u1 Hn Hin). }
  assert (NoDup l.*1) as Hnd.
  { rewrite Hkeys. by apply (@NoDup_pairs Ch CT1 CO1 U). }
  destruct (@find Ch CT1 U st k) as [u|] eqn:Hf; simpl.
  - unfold find in Hf.
    assert (@c_str Ch CT1 k ≠ []) as Hne.
    { intros Hk. by rewrite Hk, (@find_nil Ch CT1 CO1 U) in Hf. }
    apply (@find_stored Ch CT1 CO1 U) in Hf; [|done].
    apply (@elem_of_pairs Ch CT1 CO1 U) in Hf.
    pose proof (@fold_insert_find Ch CT2 CO2 T l tst_empty
                  (@c_str Ch CT2 k) (conv u) Hl Hnd) as Hc.
    unfold find in Hc |- *. rewrite (@c_str_idem Ch CT2 CO2) in Hc. apply Hc.
    apply list_elem_of_fmap. exists (@c_str Ch CT1 k, u).
    split; [|done]. simpl. by rewrite c_str_same.
  - rewrite (@fold_insert_other Ch CT2 CO2 T); [done|].
    intros (k1&Hk1&Hin1)%list_elem_of_fmap.
    rewrite Hkeys in Hin1. apply elem_of_keys in Hin1 as [u1 Hin1].
    destruct (@pairs_keys Ch CT1 CO1 U _ _ _ Hn Hin1) as [Hp1 _].
    rewrite same_nul in Hp1.
    rewrite (@c_str_id Ch CT2 k1) in Hk1 by done. subst k1.
    apply (@elem_of_pairs Ch CT1 CO1 U) in Hin1.
    apply (@stored_find Ch CT1 CO1 U _ _ _ Hb) in Hin1.
    unfold find in Hf. rewrite c_str_same in Hf. congruence.
Qed.

End converting_copy.

(** X17.  The converting copy constructor: the source may order its
    characters by another comparator and hold another value type; the copy
    finds, under its own comparator, the converted value for exactly the
    keys the source finds. *)
Theorem X17_converting_copy (Ch : Type) (CT1 CT2 : CharT Ch)
    (CO1 : @CompOrder Ch CT1) (CO2 : @CompOrder Ch CT2) (U T : Type)
    (conv : U → T) (st : tst_map Ch U) (k : tstring Ch) :
  @nul Ch CT1 = @nul Ch CT2 →
  @no_nul Ch CT1 U (root_ st) → @bst Ch CT1 U (root_ st) →
  @find Ch CT2 T (tst_copy_from CT2 conv st) k = conv <$> @find Ch CT1 U st k.
Proof. intros. by apply find_tst_copy_from. Qed.

Lemma X17_converting_copy_witness :
  let st := build [(key "b", 1%Z); (key "a", 2%Z)] in
  @find ascii uchar_CharT nat (tst_copy_from uchar_CharT Z.to_nat st) (key "a")
  = Z.to_nat <$> @find ascii char_CharT Z st (key "a").
Proof.
  apply (X17_converting_copy ascii char_CharT uchar_CharT
           char_CompOrder uchar_CompOrder Z nat).
  - reflexivity.
  - assert (valid (build [(key "b", 1%Z); (key "a", 2%Z)])) as ([Hn _]&_)
      by valid_build. exact Hn.
  - assert (valid (build [(key "b", 1%Z); (key "a", 2%Z)])) as ([_ Hb]&_)
      by valid_build. exact Hb.
Defined.

Section store_more.
Context {Ch : Type} `{!CharT Ch} `{!CompOrder Ch} {T : Type}.
Implicit Types (h : mem Ch T) (p q : node_ptr) (F G : gset nat) (s k : list Ch).

(** A run of mutations on one container computes the tree functions, and
    another container, away from it, is still there. *)
Lemma mutate_all_refines b ops :
  ∀ h a (ma mb : tst_map Ch T) Fa Fb,
    a ≠ b → models h a ma Fa → models h b mb Fb → Fa ## Fb →
    ∃ h' Fb',
      mutate_all b ops h = Some h'
      ∧ models h' a ma Fa
      ∧ models h' b (foldl mutate_tree mb ops) Fb'
      ∧ Fa ## Fb'.
Proof.
  induction ops as [|op ops IH]; intros h a ma mb Fa Fb Hab Hma Hmb Hdisj.
  { exists h, Fb. by split_and!. }
  simpl. destruct op as [k v|k].
  - destruct (obj_insert_models h b mb Fb k v Hmb) as (h1&Fb1&Hr&Hmb1&Hg&Hob).
    simpl. rewrite Hr. simpl.
    destruct (models_frame h h1 Fb Fb1 a ma Fa Hg) as [Hma1 Hd1];
      [by apply Hob|done|done|].
    by apply (IH h1 a ma (insert mb k v).1 Fa Fb1).
  - destruct (obj_remove_models h b mb Fb k Hmb) as (h1&Hr&Hmb1&Hg&Hob).
    simpl. rewrite Hr. simpl.
    destruct (models_frame h h1 Fb Fb a ma Fa Hg) as [Hma1 Hd1];
      [by apply Hob|done|done|].
    by apply (IH h1 a ma (remove mb k).1 Fa Fb).
Qed.

Lemma objects_upd_object a (f : object → object) h :
  objects (upd_object a f h) = alter f a (objects h).
Proof. done. Qed.

Lemma nodes_upd_object a (f : object → object) h :
  nodes (upd_object a f h) = nodes h.
Proof. done. Qed.

(** The loop of [remove] writes to one payload slot at most. *)
Lemma h_remove_links fuel this :
  ∀ p s h r h',
    h_remove fuel this p s h = Some (r, h') →
    (r = false → h' = h)
    ∧ length (nodes h') = length (nodes h)
    ∧ ∀ l n, nodes h !! l = Some n →
        ∃ n', nodes h' !! l = Some n'
              ∧ splitchar n' = splitchar n ∧ lokid n' = lokid n
              ∧ hikid n' = hikid n ∧ eqkid n' = eqkid n
              ∧ (pdata n' = pdata n ∨ pdata n' = None).
Proof.
  induction fuel as [|fuel IH]; intros p s h r h' Hrun; [done|].
  simpl in Hrun. destruct p as [l0|].
  2:{ injection Hrun as <- <-. split_and!; [done|done|].
      intros l n Hn. exists n. by split_and!; auto. }
  destruct (nodes h !! l0) as [n0|] eqn:Hl0; [|done]. simpl in Hrun.
  destruct (comp (deref s) (splitchar n0)); [by apply IH in Hrun|].
  destruct (equiv_ch (deref s) (splitchar n0)); [|by apply IH in Hrun].
  destruct (tail s) eqn:Hs, (pdata n0) eqn:Hd;
    try (by apply IH in Hrun).
  injection Hrun as <- <-. simpl. split_and!; [done|by rewrite length_alter|].
  intros l n Hn. destruct (decide (l = l0)) as [->|Hne].
  - rewrite list_lookup_alter_eq, Hn. simpl.
    exists (set_pdata None n). split_and!; auto.
  - rewrite list_lookup_alter_ne by done. exists n. by split_and!; auto.
Qed.

End store_more.

(** X18.  Two separate containers in one memory.  Any run of [insert] and
    [remove] on the one succeeds and leaves it in the state the tree
    functions compute; the size of the other and what [find] returns on it
    are untouched. *)
Theorem X18_mutations_in_memory (Ch : Type) (CT : CharT Ch)
    (CO : CompOrder Ch) (T : Type) (h : mem Ch T) (a b : nat)
    (ma mb : tst_map Ch T) (Fa Fb : gset nat) (ops : list (mutation Ch T)) :
  a ≠ b → models h a ma Fa → models h b mb Fb → Fa ## Fb →
  ∃ h',
    mutate_all b ops h = Some h'
    ∧ obj_size b h' = Some (size (foldl mutate_tree mb ops))
    ∧ (∀ k, obj_find b k h' = Some (find (foldl mutate_tree mb ops) k))
    ∧ obj_size a h' = obj_size a h
    ∧ (∀ k, obj_find a k h' = obj_find a k h).
Proof.
  intros Hab Hma Hmb Hd.
  destruct (mutate_all_refines b ops h a ma mb Fa Fb Hab Hma Hmb Hd)
    as (h'&Fb'&Hrun&Hma'&Hmb'&_).
  exists h'. split_and!.
  - done.
  - by eapply obj_size_models.
  - intros k. by eapply obj_find_models.
  - by rewrite (obj_size_models _ _ _ _ Hma), (obj_size_models _ _ _ _ Hma').
  - intros k.
    by rewrite (obj_find_models _ _ _ _ k Hma), (obj_find_models _ _ _ _ k Hma').
Qed.

Lemma X18_mutations_in_memory_witness :
  let h := Mem [Cell "a"%char None None None (Some 1%Z);
                Cell "b"%char None None None (Some 2%Z)]
               [Object (Some 0) 1; Object (Some 1) 1] in
  let ops := [MInsert (key "ab") 3%Z; MRemove (key "b")] in
  let mb := TstMap (Node "b"%char Null Null Null (Some 2%Z)) 1 in
  ∃ h',
    mutate_all 1 ops h = Some h'
    ∧ obj_size 1 h' = Some (size (foldl mutate_tree mb ops))
    ∧ (∀ k, obj_find 1 k h' = Some (find (foldl mutate_tree mb ops) k))
    ∧ obj_size 0 h' = obj_size 0 h
    ∧ (∀ k, obj_find 0 k h' = obj_find 0 k h).
Proof.
  apply (X18_mutations_in_memory ascii _ _ Z _ 0 1
           (TstMap (Node "a"%char Null Null Null (Some 1%Z)) 1) _
           ({[0]} ∪ ∅ ∪ ∅ ∪ ∅) ({[1]} ∪ ∅ ∪ ∅ ∪ ∅)).
  - done.
  - exists (Some 0). split; [reflexivity|].
    apply (tree_at_node _ 0 "a"%char None None None (Some 1%Z));
      [reflexivity|constructor..|set_solver|set_solver|set_solver|set_solver].
  - exists (Some 1). split; [reflexivity|].
    apply (tree_at_node _ 1 "b"%char None None None (Some 2%Z));
      [reflexivity|constructor..|set_solver|set_solver|set_solver|set_solver].
  - set_solver.
Defined.

(** X19.  [swap] between two objects: afterwards each finds, and counts,
    what the other did, and the node store is as it was: no node is
    touched. *)
Theorem X19_swap_in_memory (Ch : Type) (CT : CharT Ch) (CO : CompOrder Ch)
    (T : Type) (h : mem Ch T) (a b : nat) (ma mb : tst_map Ch T)
    (Fa Fb : gset nat) :
  a ≠ b → models h a ma Fa → models h b mb Fb →
  ∃ h',
    obj_swap a b h = Some h'
    ∧ nodes h' = nodes h
    ∧ models h' a mb Fb ∧ models h' b ma Fa
    ∧ obj_size a h' = obj_size b h ∧ obj_size b h' = obj_size a h
    ∧ (∀ k, obj_find a k h' = obj_find b k h)
    ∧ (∀ k, obj_find b k h' = obj_find a k h).
Proof.
  intros Hab Hma Hmb. pose proof Hma as (ra&Hoa&Hta).
  pose proof Hmb as (rb&Hob&Htb).
  assert (a < length (objects h)) as Hla by by eapply lookup_lt_Some.
  assert (b < length (objects h)) as Hlb by by eapply lookup_lt_Some.
  unfold obj_swap. rewrite Hoa. bind_step. rewrite Hob. bind_step.
  cbn [o_root].
  set (h1 := upd_object b (set_root ra) (upd_object a (set_root rb) h)).
  assert (objects h1 !! a = Some (Object rb (size_ ma))) as H1a.
  { unfold h1. rewrite !objects_upd_object, list_lookup_alter_ne by done.
    by rewrite list_lookup_alter_eq, Hoa. }
  assert (objects h1 !! b = Some (Object ra (size_ mb))) as H1b.
  { unfold h1. rewrite !objects_upd_object, list_lookup_alter_eq.
    by rewrite list_lookup_alter_ne, Hob. }
  rewrite H1a. bind_step. rewrite H1b. bind_step. cbn [o_size].
  set (h' := upd_object b _ _).
  assert (objects h' !! a = Some (Object rb (size_ mb))) as Hoa'.
  { unfold h'. rewrite !objects_upd_object, list_lookup_alter_ne by done.
    by rewrite list_lookup_alter_eq, H1a. }
  assert (objects h' !! b = Some (Object ra (size_ ma))) as Hob'.
  { unfold h'. rewrite !objects_upd_object, list_lookup_alter_eq.
    by rewrite list_lookup_alter_ne, H1b. }
  assert (nodes h' = nodes h) as Hnodes by done.
  assert (models h' a mb Fb) as Hma'.
  { exists rb. by rewrite Hnodes. }
  assert (models h' b ma Fa) as Hmb'.
  { exists ra. by rewrite Hnodes. }
  exists h'. split_and!; [done|done|done|done| | | |].
  - by rewrite (obj_size_models _ _ _ _ Hma'), (obj_size_models _ _ _ _ Hmb).
  - by rewrite (obj_size_models _ _ _ _ Hmb'), (obj_size_models _ _ _ _ Hma).
  - intros k.
    by rewrite (obj_find_models _ _ _ _ k Hma'), (obj_find_models _ _ _ _ k Hmb).
  - intros k.
    by rewrite (obj_find_models _ _ _ _ k Hmb'), (obj_find_models _ _ _ _ k Hma).
Qed.

Lemma X19_swap_in_memory_witness :
  let h := Mem [Cell "a"%char None None None (Some 1%Z)]
               [Object (Some 0) 1; Object None 0] in
  ∃ h',
    obj_swap 0 1 h = Some h'
    ∧ nodes h' = nodes h
    ∧ models h' 0 (tst_empty : tst_map ascii Z) ∅
    ∧ models h' 1 (TstMap (Node "a"%char Null Null Null (Some 1%Z)) 1)
        ({[0]} ∪ ∅ ∪ ∅ ∪ ∅)
    ∧ obj_size 0 h' = obj_size 1 h ∧ obj_size 1 h' = obj_size 0 h
    ∧ (∀ k, obj_find 0 k h' = obj_find 1 k h)
    ∧ (∀ k, obj_find 1 k h' = obj_find 0 k h).
Proof.
  apply (X19_swap_in_memory ascii _ _ Z).
  - done.
  - exists (Some 0). split; [reflexivity|].
    apply (tree_at_node _ 0 "a"%char None None None (Some 1%Z));
      [reflexivity|constructor..|set_solver|set_solver|set_solver|set_solver].
  - exists None. split; [reflexivity|constructor].
Defined.

(** X20.  [remove] on a container in memory succeeds, allocates and frees
    no node, and leaves every split character and every link of every node
    as it was; a payload slot either keeps its value or is nulled, and if
    the result is false memory is unchanged. *)
Theorem X20_remove_in_memory (Ch : Type) (CT : CharT Ch) (CO : CompOrder Ch)
    (T : Type) (h : mem Ch T) (a : nat) (m : tst_map Ch T) (F : gset nat)
    (k : tstring Ch) :
  models h a m F →
  ∃ h',
    obj_remove a k h = Some ((remove m k).2, h')
    ∧ ((remove m k).2 = false → h' = h)
    ∧ length (nodes h') = length (nodes h)
    ∧ ∀ l n, nodes h !! l = Some n →
        ∃ n', nodes h' !! l = Some n'
              ∧ splitchar n' = splitchar n ∧ lokid n' = lokid n
              ∧ hikid n' = hikid n ∧ eqkid n' = eqkid n
              ∧ (pdata n' = pdata n ∨ pdata n' = None).
Proof.
  intros Hm. destruct (obj_remove_models h a m F k Hm) as (h'&Hrun&_).
  exists h'. split; [done|]. unfold obj_remove in Hrun.
  destruct (objects h !! a) as [o|]; [|done].
  exact (h_remove_links _ a (o_root o) (c_str k) h _ h' Hrun).
Qed.

Lemma X20_remove_in_memory_witness :
  let h := Mem [Cell "a"%char None None None (Some 1%Z)] [Object (Some 0) 1] in
  let m := TstMap (Node "a"%char Null Null Null (Some 1%Z)) 1 in
  ∃ h',
    obj_remove 0 (key "a") h = Some ((remove m (key "a")).2, h')
    ∧ ((remove m (key "a")).2 = false → h' = h)
    ∧ length (nodes h') = length (nodes h)
    ∧ ∀ l n, nodes h !! l = Some n →
        ∃ n', nodes h' !! l = Some n'
              ∧ splitchar n' = splitchar n ∧ lokid n' = lokid n
              ∧ hikid n' = hikid n ∧ eqkid n' = eqkid n
              ∧ (pdata n' = pdata n ∨ pdata n' = None).
Proof.
  apply (X20_remove_in_memory ascii _ _ Z _ 0 _ ({[0]} ∪ ∅ ∪ ∅ ∪ ∅)).
  exists (Some 0). split; [reflexivity|].
  apply (tree_at_node _ 0 "a"%char None None None (Some 1%Z));
    [reflexivity|constructor..|set_solver|set_solver|set_solver|set_solver].
Defined.
